(** * Work-session bot: sessions mirrored in a calendar

    A shallow embedding of [src/main.py]: the Firestore collection
    [events_ref] is a finite map from document ids to documents, a document
    is a dictionary from field names to values, and every call that leaves
    the process (clock, calendar, store writes, chat replies, logging) is
    recorded in one ordered trace.  What the outside world answers to such a
    call is read from an environment [Env], one per invocation of an
    operation. *)

From Stdlib Require Import ZArith Ascii String List.
From stdpp Require Import gmap strings list fin_maps sorting.

Open Scope Z_scope.

(** ** Values and documents *)

(** A field value, as [doc.to_dict()] hands it to Python: [None], an [int],
    a [str], or a timezone-aware [datetime] (microseconds since the epoch). *)
Inductive value : Type :=
| VNull
| VInt (n : Z)
| VStr (s : string)
| VTime (t : Z).

#[global] Instance value_eq_dec : EqDecision value.
Proof. solve_decision. Defined.

(** Python truthiness of [data.get(k)]; a missing key gives [None]. *)
Definition truthy (v : option value) : bool :=
  match v with
  | None | Some VNull => false
  | Some (VInt n) => negb (n =? 0)
  | Some (VStr s) => negb (String.eqb s "")
  | Some (VTime _) => true
  end.

(** [isinstance(v, datetime)] *)
Definition is_datetime (v : option value) : option Z :=
  match v with
  | Some (VTime t) => Some t
  | _ => None
  end.

Abbreviation Data := (gmap string value).
Abbreviation Store := (gmap string Data).

(** ** Configuration constants *)

Definition minutes (n : Z) : Z := n * 60 * 1000000.
Definition ROLLING_HORIZON : Z := minutes 15.
Definition TOP_UP_THRESHOLD : Z := minutes 10.
(** [os.getenv("CALENDAR_ID")], fixed for the life of the process. *)
Definition CALENDAR_ID : string := "calendar".

(** [datetime.min.replace(tzinfo=timezone.utc)]: 0001-01-01T00:00:00Z. *)
Definition datetime_min : Z := -62135596800 * 1000000.

(** ** Exceptions and results *)

(** The exceptions that travel: what a refused store write raises
    ([StoreError], [NotFound] for an update of a missing document) and what
    [max] raises on keys that do not compare or on an empty list.  The
    calendar's [HttpError] is caught at each call, so it is an answer of the
    environment, not an [exn]. *)
Inductive exn : Type :=
| StoreError
| NotFound
| TypeError
| ValueError.

Inductive res (A : Type) : Type :=
| Ret (a : A)
| Raise (e : exn).
Arguments Ret {A} a.
Arguments Raise {A} e.

(** ** The trace of outward calls *)

Inductive Event : Type :=
| CalInsert (summary : string) (start_dt end_dt : Z) (location : string)
            (r : string + string)
| CalPatch (event_id : value) (new_end : Z) (ok : bool)
| StoreSet (doc_id : string) (ok : bool)
| StoreUpdate (doc_id : string) (ok : bool)
| Log (msg : string) (arg : option value)
| Send (text : string).

#[global] Instance Event_eq_dec : EqDecision Event.
Proof. solve_decision. Defined.

Record World : Type := mkWorld {
  store : Store;
  trace : list Event
}.

Definition emit (e : Event) (w : World) : World :=
  mkWorld (store w) (trace w ++ [e]).

Definition put_store (st : Store) (w : World) : World :=
  mkWorld st (trace w).

(** ** The environment of one invocation *)

(** [now_utc] is the clock reading of the invocation (each operation reads
    the clock once); [SERVER_TIMESTAMP] the time the store gives to a field
    written as [firestore.SERVER_TIMESTAMP]; [auto_id] the id of
    [events_ref.document()]; [insert_answer] the event id the calendar
    returns for an insert, or the text of its [HttpError]; [patch_fails]
    and [update_fails] tell, for the document being handled, whether the
    calendar patch raises [HttpError] and whether the store update raises;
    [set_fails] whether [doc_ref.set] raises. *)
Record Env : Type := mkEnv {
  now_utc : Z;
  SERVER_TIMESTAMP : Z;
  auto_id : string;
  insert_answer : string + string;
  patch_fails : string -> bool;
  set_fails : bool;
  update_fails : string -> bool
}.

(** ** Firestore queries *)

(** A query is the conjunction of its [where] clauses; [stream] lists the
    matching documents with their ids, from the store as it is: reading
    does not fail. *)
Definition Query : Type := Data -> bool.

Definition events_ref : Query := fun _ => true.

Definition where_eq (field : string) (v : value) (q : Query) : Query :=
  fun d => q d && bool_decide (d !! field = Some v).

Definition stream (q : Query) (st : Store) : list (string * Data) :=
  map_to_list (filter (fun p : string * Data => q p.2 = true) st).

Definition limit (n : nat) (l : list (string * Data)) : list (string * Data) :=
  take n l.

Definition is_nil {A : Type} (l : list A) : bool :=
  match l with [] => true | _ => false end.

(** [doc_ref.set(doc_data)]: create or overwrite the document. *)
Definition doc_set (env : Env) (id : string) (doc_data : Data) (w : World)
  : World * res unit :=
  if set_fails env then (emit (StoreSet id false) w, Raise StoreError)
  else (put_store (<[id := doc_data]> (store w)) (emit (StoreSet id true) w),
        Ret tt).

(** [doc.reference.update(fields)]: merge [fields] into the stored document;
    Firestore refuses to update a document that does not exist. *)
Definition doc_update (env : Env) (id : string) (fields : Data) (w : World)
  : World * res unit :=
  if update_fails env id then (emit (StoreUpdate id false) w, Raise StoreError)
  else match store w !! id with
       | None => (emit (StoreUpdate id false) w, Raise NotFound)
       | Some d =>
           (put_store (<[id := fields ∪ d]> (store w))
                      (emit (StoreUpdate id true) w), Ret tt)
       end.

(** ** Users *)

Record User : Type := mkUser {
  uid : Z;
  display_name : option string;
  user_str : string;
  mention : string
}.

Definition guild_value (guild_id : option Z) : value :=
  match guild_id with
  | Some g => VInt g
  | None => VNull
  end.

(** ** Session helpers *)

Definition msg_already_active : string :=
  "You already have an active event. Send 'stop' first.'".
Definition msg_calendar_unavailable (e : string) : string :=
  "Couldn't create Google Calendar event (" +:+ e +:+ "). Try again.".
Definition msg_no_active : string := "You have no active event to stop.".
Definition msg_stop_failed : string :=
  "Sorry, something went wrong stopping your event.".

(** The query both [create_event] and [stop_event] build: the user's active
    sessions, narrowed to the guild when one is given. *)
Definition active_query (user : User) (guild_id : option Z) : Query :=
  let q := where_eq "end_time" VNull
             (where_eq "user_id" (VInt (uid user)) events_ref) in
  match guild_id with
  | Some g => where_eq "guild_id" (VInt g) q
  | None => q
  end.

Definition new_doc_data (user : User) (location : string)
    (guild_id : option Z) (start_dt initial_end : Z) (event_id : string)
  : Data :=
  <["event" := VStr "work_session"]>
  (<["user_id" := VInt (uid user)]>
  (<["username" := VStr (user_str user)]>
  (<["guild_id" := guild_value guild_id]>
  (<["location" := VStr location]>
  (<["start_time" := VTime start_dt]>
  (<["end_time" := VNull]>
  (<["calendar_id" := VStr CALENDAR_ID]>
  (<["calendar_event_id" := VStr event_id]>
  (<["calendar_end" := VTime initial_end]>
  (<["last_extend_check" := VTime start_dt]> ∅)))))))))).

(** [getattr(user, "display_name", str(user))] and the event summary. *)
Definition event_summary (user : User) (location : string) : string :=
  let username := default (user_str user) (display_name user) in
  username +:+ " working at " +:+ location.

Definition create_event (env : Env) (user : User) (location : string)
    (guild_id : option Z) (w : World)
  : World * res (option string * option string) :=
  let q := active_query user guild_id in
  if negb (is_nil (limit 1 (stream q (store w)))) then
    (w, Ret (None, Some msg_already_active))
  else
    let start_dt := now_utc env in
    let initial_end := start_dt + ROLLING_HORIZON in
    let summary := event_summary user location in
    match insert_answer env with
    | inr e =>
        (emit (Log "Failed to insert calendar event" None)
           (emit (CalInsert summary start_dt initial_end location (inr e)) w),
         Ret (None, Some (msg_calendar_unavailable e)))
    | inl event_id =>
        let w1 :=
          emit (CalInsert summary start_dt initial_end location (inl event_id))
               w in
        let doc_data :=
          new_doc_data user location guild_id start_dt initial_end event_id in
        match doc_set env (auto_id env) doc_data w1 with
        | (w2, Raise e) => (w2, Raise e)
        | (w2, Ret _) => (w2, Ret (Some (auto_id env), None))
        end
    end.

(** [data.get("start_time") or datetime.min.replace(tzinfo=timezone.utc)] *)
Definition _get_start (data : Data) : value :=
  match data !! "start_time" with
  | Some v => if truthy (Some v) then v else VTime datetime_min
  | None => VTime datetime_min
  end.

(** Python's [a > b] on the values a key can take; values of different
    types do not compare. *)
Definition py_gt (a b : value) : res bool :=
  match a, b with
  | VInt x, VInt y => Ret (y <? x)
  | VStr x, VStr y => Ret (String.ltb y x)
  | VTime x, VTime y => Ret (y <? x)
  | _, _ => Raise TypeError
  end.

(** [max(snap, key=_get_start)]: the first item whose key no later item
    exceeds. *)
Fixpoint max_from (best : string * Data) (best_key : value)
    (rest : list (string * Data)) : res (string * Data) :=
  match rest with
  | [] => Ret best
  | item :: rest' =>
      let k := _get_start item.2 in
      match py_gt k best_key with
      | Ret true => max_from item k rest'
      | Ret false => max_from best best_key rest'
      | Raise e => Raise e
      end
  end.

Definition py_max (snap : list (string * Data)) : res (string * Data) :=
  match snap with
  | [] => Raise ValueError
  | item :: rest => max_from item (_get_start item.2) rest
  end.

(** The documents [stop_event] chooses from: the scoped query, then the
    cross-guild fallback. *)
Definition stop_candidates (user : User) (guild_id : option Z) (st : Store)
  : list (string * Data) :=
  let snap := stream (active_query user guild_id) st in
  if is_nil snap && bool_decide (guild_id <> None) then
    stream (active_query user None) st
  else snap.

Definition stop_fields (env : Env) (stop_ts : Z) : Data :=
  <["end_time" := VTime (SERVER_TIMESTAMP env)]>
  (<["calendar_end" := VTime stop_ts]>
  (<["last_extend_check" := VTime stop_ts]> ∅)).

(** The calendar patch of [stop_event], under its [if event_id:] guard. *)
Definition stop_patch (env : Env) (id : string) (event_id : option value)
    (stop_ts : Z) (w : World) : World :=
  match event_id with
  | Some eid =>
      if truthy event_id then
        if patch_fails env id then
          emit (Log "Failed to patch calendar event end on stop" None)
               (emit (CalPatch eid stop_ts false) w)
        else emit (CalPatch eid stop_ts true) w
      else w
  | None => w
  end.

(** The body of the [try] of [stop_event]. *)
Definition stop_event_try (env : Env) (user : User) (guild_id : option Z)
    (w : World) : World * res (option string * option string) :=
  let snap := stop_candidates user guild_id (store w) in
  if is_nil snap then (w, Ret (None, Some msg_no_active))
  else
    match py_max snap with
    | Raise e => (w, Raise e)
    | Ret (id, data) =>
        let stop_ts := now_utc env in
        let event_id := data !! "calendar_event_id" in
        let w1 := stop_patch env id event_id stop_ts w in
        match doc_update env id (stop_fields env stop_ts) w1 with
        | (w2, Raise e) => (w2, Raise e)
        | (w2, Ret _) => (w2, Ret (Some id, None))
        end
    end.

Definition stop_event (env : Env) (user : User) (guild_id : option Z)
    (w : World) : World * res (option string * option string) :=
  match stop_event_try env user guild_id w with
  | (w', Raise _) =>
      (emit (Log "Error stopping event" None) w',
       Ret (None, Some msg_stop_failed))
  | r => r
  end.

(** ** Background extender *)

Definition extend_fields (now new_end : Z) : Data :=
  <["calendar_end" := VTime new_end]>
  (<["last_extend_check" := VTime now]> ∅).

(** [current_end], after the [isinstance] check. *)
Definition current_end_of (data : Data) (now : Z) : Z :=
  match is_datetime (data !! "calendar_end") with
  | Some t => t
  | None => now
  end.

(** One iteration of the [for doc in active] loop. *)
Definition extend_one (env : Env) (now : Z) (doc : string * Data) (w : World)
  : World * res unit :=
  let data := doc.2 in
  match data !! "calendar_event_id" with
  | None => (w, Ret tt)
  | Some event_id =>
      if negb (truthy (Some event_id)) then (w, Ret tt)
      else
        let current_end := current_end_of data now in
        if current_end - now <=? TOP_UP_THRESHOLD then
          let new_end := now + ROLLING_HORIZON in
          if patch_fails env doc.1 then
            (emit (Log "Failed to extend calendar event" (Some event_id))
                  (emit (CalPatch event_id new_end false) w), Ret tt)
          else
            doc_update env doc.1 (extend_fields now new_end)
                       (emit (CalPatch event_id new_end true) w)
        else (w, Ret tt)
  end.

Fixpoint extend_loop (env : Env) (now : Z) (active : list (string * Data))
    (w : World) : World * res unit :=
  match active with
  | [] => (w, Ret tt)
  | doc :: rest =>
      match extend_one env now doc w with
      | (w', Ret _) => extend_loop env now rest w'
      | (w', Raise e) => (w', Raise e)
      end
  end.

Definition active_sessions (st : Store) : list (string * Data) :=
  stream (where_eq "end_time" VNull events_ref) st.

(** The body of the [try] of [extend_active_events]. *)
Definition extend_try (env : Env) (w : World) : World * res unit :=
  let active := active_sessions (store w) in
  if is_nil active then (w, Ret tt)
  else extend_loop env (now_utc env) active w.

Definition extend_active_events (env : Env) (w : World) : World * res unit :=
  match extend_try env w with
  | (w', Raise _) =>
      (emit (Log "Error in extend_active_events loop" None) w', Ret tt)
  | r => r
  end.

(** ** Chat front-end *)

(** Message text is a string of 7-bit characters; on these [lower],
    [strip] and [split] are Python's. *)

Definition is_space (c : ascii) : bool :=
  let n := N_of_ascii c in
  ((9 <=? n) && (n <=? 13) || (28 <=? n) && (n <=? 32))%N.

Definition lower_char (c : ascii) : ascii :=
  let n := N_of_ascii c in
  if ((65 <=? n) && (n <=? 90))%N then ascii_of_N (n + 32) else c.

Fixpoint lower (s : string) : string :=
  match s with
  | EmptyString => EmptyString
  | String c s' => String (lower_char c) (lower s')
  end.

Fixpoint lstrip (s : string) : string :=
  match s with
  | EmptyString => EmptyString
  | String c s' => if is_space c then lstrip s' else s
  end.

Definition rstrip (s : string) : string := String.rev (lstrip (String.rev s)).

Definition strip (s : string) : string := rstrip (lstrip s).

(** [s.split()]: the maximal runs of non-whitespace characters.  [cur] is
    the run being read, last character first. *)
Definition close_run (cur : string) : list string :=
  match cur with
  | EmptyString => []
  | _ => [String.rev cur]
  end.

Fixpoint split_from (cur : string) (s : string) : list string :=
  match s with
  | EmptyString => close_run cur
  | String c s' =>
      if is_space c then close_run cur ++ split_from EmptyString s'
      else split_from (String c cur) s'
  end.

Definition split (s : string) : list string := split_from EmptyString s.

Definition startswith (s p : string) : bool := String.prefix p s.

(** [p in s] on strings. *)
Fixpoint contains (p s : string) : bool :=
  String.prefix p s ||
  match s with
  | EmptyString => false
  | String _ s' => contains p s'
  end.

Definition PLACES : list string := ["ieee"; "mcgill"; "ev"; "home"].

Definition sorted (l : list string) : list string := merge_sort String.le l.

Definition join (sep : string) (l : list string) : string :=
  String.concat sep l.

Record Message : Type := mkMessage {
  author : User;
  author_is_bot : bool;
  content : string;
  guild : option Z
}.

Definition str_truthy (o : option string) : bool :=
  match o with
  | Some s => negb (String.eqb s "")
  | None => false
  end.

Definition show_id (o : option string) : string := default "None" o.

Section Chat.

(** [PLACES] is a Python set: the order in which [for place in PLACES]
    visits it is fixed for a process but not by the program. *)
Variable places_iter : list string.

Definition msg_prompt (message : Message) : string :=
  mention (author message) +:+ " Mention the location (choose one: "
  +:+ join ", " (sorted places_iter) +:+ ").".

Definition msg_invalid : string :=
  "Invalid location! Options: " +:+ join ", " (sorted places_iter).

Definition msg_started (message : Message) (location : string)
    (doc_id : option string) : string :=
  mention (author message) +:+ " Starting event at **" +:+ location +:+ "**. "
  +:+ "Calendar created and will keep extending. Event ID: `"
  +:+ show_id doc_id +:+ "`".

Definition msg_stopped (message : Message) (guild_id : option Z)
    (doc_id : option string) : string :=
  let scope :=
    match guild_id with
    | Some _ => "this server"
    | None => "your latest active session"
    end in
  mention (author message) +:+ " Stopped " +:+ scope +:+ " (`" +:+ show_id doc_id
  +:+ "`). Final end time recorded on Calendar.".

(** The [for place in PLACES] scan. *)
Definition scan_places (content : string) : option string :=
  find (fun place => contains place content) places_iter.

(** What [on_message] sends once [create_event] or [stop_event] has answered
    [(doc_id, err)]. *)
Definition reply (message : Message) (ok_text : option string -> string)
    (r : World * res (option string * option string)) : World * res unit :=
  match r with
  | (w', Raise e) => (w', Raise e)
  | (w', Ret (doc_id, err)) =>
      if str_truthy err then
        (emit (Send (mention (author message) +:+ " " +:+ default "" err)) w',
         Ret tt)
      else (emit (Send (ok_text doc_id)) w', Ret tt)
  end.

(** [bot.process_commands] finds no command to run: the bot registers none. *)
Definition on_message (env : Env) (message : Message) (w : World)
  : World * res unit :=
  if author_is_bot message then (w, Ret tt)
  else
    let content := strip (lower (content message)) in
    let guild_id := guild message in
    if startswith content "start" then
      let parts := split content in
      if (length parts =? 1)%nat then
        (emit (Send (msg_prompt message)) w, Ret tt)
      else
        let location := scan_places content in
        if negb (str_truthy location) then
          (emit (Send msg_invalid) w, Ret tt)
        else
          let place := default "" location in
          reply message (msg_started message place)
                (create_event env (author message) place guild_id w)
    else if startswith content "stop" then
      reply message (msg_stopped message guild_id)
            (stop_event env (author message) guild_id w)
    else (w, Ret tt).

End Chat.

(** ** Runs of operations *)

Inductive Op : Type :=
| Start (user : User) (location : string) (guild_id : option Z)
| Stop (user : User) (guild_id : option Z)
| Reconcile.

Definition step (env : Env) (op : Op) (w : World) : World :=
  match op with
  | Start user location guild_id => (create_event env user location guild_id w).1
  | Stop user guild_id => (stop_event env user guild_id w).1
  | Reconcile => (extend_active_events env w).1
  end.

Definition run (ops : list (Env * Op)) (w : World) : World :=
  foldl (fun w eo => step eo.1 eo.2 w) w ops.

(** ** Session predicates *)

Definition is_active (d : Data) : Prop := d !! "end_time" = Some VNull.

(** [d] is an active session of actor [u] in scope [s]. *)
Definition session_of (u : Z) (s : option Z) (d : Data) : Prop :=
  d !! "user_id" = Some (VInt u) /\
  d !! "guild_id" = Some (guild_value s) /\
  is_active d.

Definition single_active (st : Store) : Prop :=
  forall u s i j di dj,
    st !! i = Some di -> st !! j = Some dj ->
    session_of u s di -> session_of u s dj -> i = j.

(** ** Vocabulary of the statements *)

(** Every document active in [st] is still there and active in [st']. *)
Definition keeps_active (st st' : Store) : Prop :=
  forall i d, st !! i = Some d -> is_active d ->
    exists d', st' !! i = Some d' /\ is_active d'.

Definition is_created (e : Event) : bool :=
  match e with
  | CalInsert _ _ _ _ (inl _) => true
  | _ => false
  end.

Definition is_persisted (e : Event) : bool :=
  match e with
  | StoreSet _ true => true
  | _ => false
  end.

Definition count_events (p : Event -> bool) (t : list Event) : nat :=
  length (List.filter p t).

(** The events [w'] has beyond those of [w]. *)
Definition new_events (w w' : World) : list Event :=
  drop (length (trace w)) (trace w').

(** One calendar event and one session record, or neither. *)
Definition start_all_or_nothing (env : Env) (user : User) (location : string)
    (guild_id : option Z) (w : World) : Prop :=
  let w' := (create_event env user location guild_id w).1 in
  let evs := new_events w w' in
  (count_events is_created evs = 1%nat /\
   count_events is_persisted evs = 1%nat /\
   exists id data, store w' = <[id := data]> (store w)) \/
  (count_events is_created evs = 0%nat /\
   count_events is_persisted evs = 0%nat /\
   store w' = store w).

(** The policy of one pass, session by session: whether the session is due,
    what the pass says to the calendar and the store about it, and the
    document it leaves. *)
Definition due (data : Data) (now : Z) : bool :=
  current_end_of data now - now <=? TOP_UP_THRESHOLD.

Definition session_events (env : Env) (now : Z) (doc : string * Data)
  : list Event :=
  match doc.2 !! "calendar_event_id" with
  | Some event_id =>
      if truthy (Some event_id) && due doc.2 now then
        if patch_fails env doc.1 then
          [CalPatch event_id (now + ROLLING_HORIZON) false;
           Log "Failed to extend calendar event" (Some event_id)]
        else
          [CalPatch event_id (now + ROLLING_HORIZON) true;
           StoreUpdate doc.1 true]
      else []
  | None => []
  end.

Definition session_after (env : Env) (now : Z) (doc : string * Data) : Data :=
  if truthy (doc.2 !! "calendar_event_id") && due doc.2 now
     && negb (patch_fails env doc.1)
  then extend_fields now (now + ROLLING_HORIZON) ∪ doc.2
  else doc.2.

(** The stored session [id] was stopped at [t]: [end_time], [calendar_end]
    and [last_extend_check] all hold [t]. *)
Definition stopped_at (st : Store) (id : string) (t : Z) : Prop :=
  exists d, st !! id = Some d /\
    d !! "end_time" = Some (VTime t) /\
    d !! "calendar_end" = Some (VTime t) /\
    d !! "last_extend_check" = Some (VTime t).




(** [p] occurs in [s]. *)
Definition is_substring (p s : string) : Prop :=
  exists pre post, s = pre +:+ p +:+ post.

Definition options_text : string := "ev, home, ieee, mcgill".

(** The fields Stop and Reconcile write. *)
Definition session_fields : list string :=
  ["end_time"; "calendar_end"; "last_extend_check"].

(** [d'] is [d] up to those fields. *)
Definition same_identity (d d' : Data) : Prop :=
  forall k, k ∉ session_fields -> d' !! k = d !! k.

(** No Start of the run draws [i] as the id of its new document. *)
Definition fresh_for (i : string) (ops : list (Env * Op)) : Prop :=
  forall env user location guild_id,
    (env, Start user location guild_id) ∈ ops -> auto_id env <> i.



Definition is_empty (s : string) : bool :=
  match s with
  | EmptyString => true
  | _ => false
  end.


(** [s] has a whitespace character. *)
Fixpoint has_space (s : string) : bool :=
  match s with
  | EmptyString => false
  | String c s' => is_space c || has_space s'
  end.


(** ** Sample users, environments and worlds *)

(** Two users. *)
Definition alice : User := mkUser 7 (Some "Alice") "alice#0007" "<@7>".

Definition bob : User := mkUser 8 None "bob#0008" "<@8>".

(** An invocation at [now] in which the calendar and the store answer;
    the store commits a quarter of a second after the clock reading. *)
Definition calm (now : Z) (id eid : string) : Env :=
  mkEnv now (now + 250000) id (inl eid) (fun _ => false) false
        (fun _ => false).

(** The empty collection, nothing said yet. *)
Definition nothing : World := mkWorld ∅ [].

(** The calendar answers, the store refuses [set]. *)
Definition store_refuses (now : Z) (id eid : string) : Env :=
  mkEnv now (now + 250000) id (inl eid) (fun _ => false) true
        (fun _ => false).

(** At minute 6 the calendar refuses the patch for Alice's session only. *)
Definition refuses_doc1 : Env :=
  mkEnv (minutes 6) (minutes 6) "doc3" (inl "ev3")
        (fun id => String.eqb id "doc1") false (fun _ => false).

(** The calendar answers, the store refuses [update]. *)
Definition update_refused (now : Z) : Env :=
  mkEnv now (now + 250000) "doc9" (inl "ev9") (fun _ => false) false
        (fun _ => true).

(** Neither the calendar nor the store answers. *)
Definition outage (now : Z) : Env :=
  mkEnv now (now + 250000) "doc9" (inl "ev9") (fun _ => true) false
        (fun _ => true).

(** Alice has started at time 0 in guild 5; her document. *)
Definition started : World :=
  (create_event (calm 0 "doc1" "ev1") alice "home" (Some 5) nothing).1.

Definition started_doc : Data :=
  new_doc_data alice "home" (Some 5) 0 (minutes 15) "ev1".

(** Alice and Bob both started at time 0. *)
Definition two_started : World :=
  (create_event (calm 0 "doc2" "ev2") bob "ieee" (Some 5) started).1.

(** Alice has started at time 0 and stopped at minute 8. *)
Definition stopped : World :=
  (stop_event (calm (minutes 8) "doc2" "ev2") alice (Some 5) started).1.

(** A session document without a calendar event id. *)
Definition bare_doc : Data :=
  <["event" := VStr "work_session"]>
  (<["user_id" := VInt 7]>
  (<["guild_id" := VInt 5]>
  (<["location" := VStr "home"]>
  (<["start_time" := VTime 0]>
  (<["end_time" := VNull]> ∅))))).


(** Bob starts, a pass runs, Alice tries to stop again. *)
Definition later_ops : list (Env * Op) :=
  [(calm (minutes 9) "doc2" "ev2", Start bob "ieee" (Some 5));
   (calm (minutes 16) "doc3" "ev3", Reconcile);
   (calm (minutes 17) "doc4" "ev4", Stop alice None)].

(** Alice's session of time 0 beside an older document of hers that has no
    start time. *)
Definition with_undated : World :=
  mkWorld (<["old1" := delete "start_time" bare_doc]> (store started)) [].

(** * Lemmas *)

Section Queries.

Lemma where_eq_true field v q d :
  where_eq field v q d = true <-> q d = true /\ d !! field = Some v.
Proof.
  unfold where_eq. rewrite andb_true_iff, bool_decide_eq_true. tauto.
Qed.

Lemma elem_of_stream q (st : Store) i d :
  (i, d) ∈ stream q st <-> st !! i = Some d /\ q d = true.
Proof.
  unfold stream. rewrite elem_of_map_to_list, map_lookup_filter_Some.
  simpl. tauto.
Qed.

Lemma NoDup_stream_ids q (st : Store) : NoDup (stream q st).*1.
Proof. apply NoDup_fst_map_to_list. Qed.

Lemma stream_nil q (st : Store) :
  stream q st = [] <-> forall i d, st !! i = Some d -> q d = false.
Proof.
  split.
  - intros Hnil i d Hi. destruct (q d) eqn:Hq; [|done].
    assert ((i, d) ∈ stream q st) as Hin by (by apply elem_of_stream).
    rewrite Hnil in Hin. by apply elem_of_nil in Hin.
  - intros Hall. destruct (stream q st) as [|[i d] l] eqn:Hs; [done|].
    assert ((i, d) ∈ stream q st) as Hin by (rewrite Hs; left).
    apply elem_of_stream in Hin as [Hi Hq]. rewrite (Hall _ _ Hi) in Hq. done.
Qed.

Lemma is_nil_limit_1 l : is_nil (limit 1 l) = is_nil l.
Proof. by destruct l. Qed.

Lemma active_query_true user guild_id d :
  active_query user guild_id d = true <->
  d !! "user_id" = Some (VInt (uid user)) /\ is_active d /\
  match guild_id with
  | Some g => d !! "guild_id" = Some (VInt g)
  | None => True
  end.
Proof.
  unfold active_query, is_active.
  destruct guild_id; rewrite !where_eq_true; unfold events_ref; tauto.
Qed.

Lemma session_of_active_query user guild_id d :
  session_of (uid user) guild_id d -> active_query user guild_id d = true.
Proof.
  intros (Hu & Hg & Ha). apply active_query_true.
  destruct guild_id; simpl in *; auto.
Qed.

End Queries.

Section StoreWrites.

Lemma world_eta w : mkWorld (store w) (trace w) = w.
Proof. destruct w. reflexivity. Qed.

Lemma new_doc_session user location guild_id start_dt initial_end event_id :
  session_of (uid user) guild_id
    (new_doc_data user location guild_id start_dt initial_end event_id).
Proof. by repeat split. Qed.

Lemma new_doc_session_inv user location guild_id start_dt initial_end event_id
    u s :
  session_of u s
    (new_doc_data user location guild_id start_dt initial_end event_id) ->
  u = uid user /\ s = guild_id.
Proof.
  intros (Hu & Hg & _). unfold new_doc_data in *. simplify_map_eq.
  split; [done|]. destruct s, guild_id; simpl in *; congruence.
Qed.

(** What [doc_update] does to the store: nothing, or one merge into the
    document as stored. *)
Lemma doc_update_store env id fields w w' r :
  doc_update env id fields w = (w', r) ->
  (store w' = store w /\ (exists e, r = Raise e) /\
   trace w' = trace w ++ [StoreUpdate id false]) \/
  (exists d, store w !! id = Some d /\ update_fails env id = false /\
     store w' = <[id := fields ∪ d]> (store w) /\ r = Ret tt /\
     trace w' = trace w ++ [StoreUpdate id true]).
Proof.
  unfold doc_update. intros H.
  destruct (update_fails env id); [left; simplify_eq; eauto|].
  destruct (store w !! id) as [d|] eqn:Hd; simplify_eq; [right|left]; eauto 10.
Qed.

Lemma stop_fields_not_active env stop_ts (d : Data) :
  ~ is_active (stop_fields env stop_ts ∪ d).
Proof.
  unfold is_active, stop_fields. intros H.
  rewrite lookup_union_l' in H by (simplify_map_eq; eauto).
  by simplify_map_eq.
Qed.

Lemma extend_fields_lookup now new_end (d : Data) k :
  k <> "calendar_end" -> k <> "last_extend_check" ->
  (extend_fields now new_end ∪ d) !! k = d !! k.
Proof.
  intros H1 H2. unfold extend_fields.
  rewrite lookup_union_r; [done|]. by simplify_map_eq.
Qed.

Lemma extend_fields_session now new_end (d : Data) u s :
  session_of u s (extend_fields now new_end ∪ d) <-> session_of u s d.
Proof.
  unfold session_of, is_active. by rewrite !extend_fields_lookup.
Qed.

End StoreWrites.

Section SingleActive.

Lemma single_active_empty : single_active ∅.
Proof. intros u s i j di dj Hi. by rewrite lookup_empty in Hi. Qed.

(** Replacing a stored document by one that is a session of no more pairs
    keeps the guard. *)
Lemma single_active_update (st : Store) id d d' :
  single_active st -> st !! id = Some d ->
  (forall u s, session_of u s d' -> session_of u s d) ->
  single_active (<[id := d']> st).
Proof.
  intros Hinv Hid Hsub u s i j di dj Hi Hj Si Sj.
  destruct (decide (i = id)) as [->|Hni], (decide (j = id)) as [->|Hnj];
    [done|..]; simplify_map_eq.
  - eapply Hinv; eauto.
  - eapply Hinv; eauto.
  - eapply Hinv; eauto.
Qed.

(** Writing a new session for a pair the guard query found free keeps the
    guard, also when the id was taken. *)
Lemma single_active_new (st : Store) id user location guild_id t1 t2 eid :
  single_active st ->
  (forall i d, st !! i = Some d -> active_query user guild_id d = false) ->
  single_active (<[id := new_doc_data user location guild_id t1 t2 eid]> st).
Proof.
  intros Hinv Hfree u s i j di dj Hi Hj Si Sj.
  destruct (decide (i = id)) as [->|Hni], (decide (j = id)) as [->|Hnj];
    [done|..]; simplify_map_eq.
  - apply new_doc_session_inv in Si as [-> ->].
    apply session_of_active_query in Sj. by rewrite (Hfree _ _ Hj) in Sj.
  - apply new_doc_session_inv in Sj as [-> ->].
    apply session_of_active_query in Si. by rewrite (Hfree _ _ Hi) in Si.
  - eapply Hinv; eauto.
Qed.

End SingleActive.

Section Operations.

(** The four ways [create_event] can go. *)
Lemma create_event_cases env user location guild_id w :
  let start_dt := now_utc env in
  let initial_end := start_dt + ROLLING_HORIZON in
  let call := CalInsert (event_summary user location) start_dt initial_end
                        location in
  let id := auto_id env in
  (stream (active_query user guild_id) (store w) <> [] /\
   create_event env user location guild_id w =
     (w, Ret (None, Some msg_already_active))) \/
  (stream (active_query user guild_id) (store w) = [] /\
   ((exists e, insert_answer env = inr e /\
       create_event env user location guild_id w =
         (mkWorld (store w)
            (trace w ++ [call (inr e);
                         Log "Failed to insert calendar event" None]),
          Ret (None, Some (msg_calendar_unavailable e)))) \/
    (exists eid, insert_answer env = inl eid /\ set_fails env = true /\
       create_event env user location guild_id w =
         (mkWorld (store w) (trace w ++ [call (inl eid); StoreSet id false]),
          Raise StoreError)) \/
    (exists eid, insert_answer env = inl eid /\ set_fails env = false /\
       create_event env user location guild_id w =
         (mkWorld
            (<[id := new_doc_data user location guild_id start_dt initial_end
                       eid]> (store w))
            (trace w ++ [call (inl eid); StoreSet id true]),
          Ret (Some id, None))))).
Proof.
  intros start_dt initial_end call id. unfold create_event.
  rewrite is_nil_limit_1.
  destruct (stream (active_query user guild_id) (store w)) as [|x l] eqn:Hq;
    simpl; [right; split; [done|]|left; by split].
  destruct (insert_answer env) as [eid|e]; [right|left].
  - unfold doc_set. destruct (set_fails env); [left|right];
      exists eid; repeat split; simpl; unfold emit, put_store; simpl;
      by rewrite <- app_assoc.
  - exists e. split; [done|]. unfold emit; simpl. by rewrite <- app_assoc.
Qed.

(** [stop_patch] only talks to the calendar. *)
Lemma store_stop_patch env id event_id stop_ts w :
  store (stop_patch env id event_id stop_ts w) = store w.
Proof.
  unfold stop_patch. destruct event_id; [|done].
  destruct (truthy _); [|done]. by destruct (patch_fails env id).
Qed.

Lemma stop_event_try_store env user guild_id w w' r :
  stop_event_try env user guild_id w = (w', r) ->
  store w' = store w \/
  exists id d, store w !! id = Some d /\
    store w' = <[id := stop_fields env (now_utc env) ∪ d]> (store w).
Proof.
  unfold stop_event_try.
  destruct (is_nil _); [intros; simplify_eq; by left|].
  destruct (py_max _) as [[id data]|e]; [|intros; simplify_eq; by left].
  destruct (doc_update _ _ _ _) as [w2 r2] eqn:Hup.
  apply doc_update_store in Hup as [(Hs & _)|(d & Hd & _ & Hs & _)];
    rewrite store_stop_patch in *; intros Heq.
  - left. destruct r2; simplify_eq; done.
  - right. exists id, d. destruct r2; simplify_eq; done.
Qed.

Lemma stop_event_store env user guild_id w :
  store (stop_event env user guild_id w).1 = store w \/
  exists id d, store w !! id = Some d /\
    store (stop_event env user guild_id w).1 =
      <[id := stop_fields env (now_utc env) ∪ d]> (store w).
Proof.
  unfold stop_event.
  destruct (stop_event_try env user guild_id w) as [w' r] eqn:Htry.
  apply stop_event_try_store in Htry. by destruct r.
Qed.

Lemma extend_one_store env now doc w w' r :
  extend_one env now doc w = (w', r) ->
  store w' = store w \/
  exists d, store w !! doc.1 = Some d /\
    store w' = <[doc.1 := extend_fields now (now + ROLLING_HORIZON) ∪ d]>
                 (store w).
Proof.
  unfold extend_one. destruct (doc.2 !! "calendar_event_id") as [eid|];
    [|intros; simplify_eq; by left].
  destruct (negb _); [intros; simplify_eq; by left|].
  destruct (_ <=? _); [|intros; simplify_eq; by left].
  destruct (patch_fails env doc.1); [intros; simplify_eq; by left|].
  intros [(Hs & _)|(d & Hd & _ & Hs & _)]%doc_update_store; [by left|right].
  exists d. by split.
Qed.

End Operations.

Section Invariant.

Lemma create_event_single_active env user location guild_id w :
  single_active (store w) ->
  single_active (store (create_event env user location guild_id w).1).
Proof.
  intros Hinv.
  destruct (create_event_cases env user location guild_id w)
    as [[_ ->]|[Hnil [(e & _ & ->)|[(eid & _ & _ & ->)|(eid & _ & _ & ->)]]]];
    simpl; try done.
  apply single_active_new; [done|]. by apply stream_nil.
Qed.

Lemma stop_event_single_active env user guild_id w :
  single_active (store w) ->
  single_active (store (stop_event env user guild_id w).1).
Proof.
  intros Hinv.
  destruct (stop_event_store env user guild_id w) as [->|(id & d & Hd & ->)];
    [done|].
  eapply single_active_update; [done..|].
  intros u s (_ & _ & Ha). by apply stop_fields_not_active in Ha.
Qed.

Lemma extend_loop_single_active env now active w :
  single_active (store w) ->
  single_active (store (extend_loop env now active w).1).
Proof.
  revert w. induction active as [|doc rest IH]; intros w Hinv; [done|].
  simpl. destruct (extend_one env now doc w) as [w' r] eqn:Hone.
  assert (single_active (store w')) as Hinv'.
  { apply extend_one_store in Hone as [->|(d & Hd & ->)]; [done|].
    eapply single_active_update; [done..|].
    intros u s. by rewrite extend_fields_session. }
  destruct r; [by apply IH|done].
Qed.

Lemma extend_active_events_single_active env w :
  single_active (store w) ->
  single_active (store (extend_active_events env w).1).
Proof.
  intros Hinv. unfold extend_active_events, extend_try.
  destruct (is_nil _); [done|].
  pose proof (extend_loop_single_active env (now_utc env)
                (active_sessions (store w)) w Hinv) as H.
  destruct (extend_loop _ _ _ _) as [w' [|e]]; done.
Qed.

Lemma step_single_active env op w :
  single_active (store w) -> single_active (store (step env op w)).
Proof.
  destruct op; simpl;
    auto using create_event_single_active, stop_event_single_active,
               extend_active_events_single_active.
Qed.

Lemma run_single_active ops w :
  single_active (store w) -> single_active (store (run ops w)).
Proof.
  revert w. induction ops as [|[env op] ops IH]; intros w Hinv; [done|].
  simpl. apply IH. by apply step_single_active.
Qed.

Lemma keeps_active_refl st : keeps_active st st.
Proof. intros i d ??; eauto. Qed.

Lemma keeps_active_trans st1 st2 st3 :
  keeps_active st1 st2 -> keeps_active st2 st3 -> keeps_active st1 st3.
Proof.
  intros H12 H23 i d Hi Ha.
  destruct (H12 _ _ Hi Ha) as (d2 & Hi2 & Ha2). eauto.
Qed.

Lemma keeps_active_insert (st : Store) id d' :
  is_active d' -> keeps_active st (<[id := d']> st).
Proof.
  intros Ha' i d Hi Ha. destruct (decide (i = id)) as [->|Hne].
  - exists d'. by rewrite lookup_insert_eq.
  - exists d. by rewrite lookup_insert_ne.
Qed.

Lemma create_event_keeps_active env user location guild_id w :
  keeps_active (store w) (store (create_event env user location guild_id w).1).
Proof.
  destruct (create_event_cases env user location guild_id w)
    as [[_ ->]|[Hnil [(e & _ & ->)|[(eid & _ & _ & ->)|(eid & _ & _ & ->)]]]];
    simpl; try apply keeps_active_refl.
  by apply keeps_active_insert.
Qed.

Lemma extend_loop_keeps_active env now active w :
  keeps_active (store w) (store (extend_loop env now active w).1).
Proof.
  revert w. induction active as [|doc rest IH]; intros w;
    [apply keeps_active_refl|].
  simpl. destruct (extend_one env now doc w) as [w' r] eqn:Hone.
  assert (keeps_active (store w) (store w')) as Hk.
  { apply extend_one_store in Hone as [->|(d & Hd & ->)];
      [apply keeps_active_refl|].
    intros i di Hi Ha. destruct (decide (i = doc.1)) as [->|Hne].
    - eexists. rewrite lookup_insert_eq. split; [done|].
      unfold is_active in *. rewrite extend_fields_lookup by done. congruence.
    - exists di. by rewrite lookup_insert_ne. }
  destruct r; [|done]. eapply keeps_active_trans; [done|apply IH].
Qed.

Lemma extend_active_events_keeps_active env w :
  keeps_active (store w) (store (extend_active_events env w).1).
Proof.
  unfold extend_active_events, extend_try.
  destruct (is_nil _); [apply keeps_active_refl|].
  pose proof (extend_loop_keeps_active env (now_utc env)
                (active_sessions (store w)) w) as H.
  destruct (extend_loop _ _ _ _) as [w' [|e]]; done.
Qed.

End Invariant.

(** * Start: the single-active-session guard *)

Lemma create_event_refuses env user location guild_id w i d :
  store w !! i = Some d -> active_query user guild_id d = true ->
  create_event env user location guild_id w =
    (w, Ret (None, Some msg_already_active)).
Proof.
  intros Hi Hq.
  destruct (create_event_cases env user location guild_id w)
    as [[_ ->]|[Hnil _]]; [done|].
  rewrite stream_nil in Hnil. by rewrite (Hnil _ _ Hi) in Hq.
Qed.

Lemma create_event_success_store env user location guild_id w w' id :
  create_event env user location guild_id w = (w', Ret (Some id, None)) ->
  exists eid,
    insert_answer env = inl eid /\ id = auto_id env /\
    stream (active_query user guild_id) (store w) = [] /\
    store w' =
      <[id := new_doc_data user location guild_id (now_utc env)
                (now_utc env + ROLLING_HORIZON) eid]> (store w) /\
    trace w' =
      trace w ++ [CalInsert (event_summary user location) (now_utc env)
                    (now_utc env + ROLLING_HORIZON) location (inl eid);
                  StoreSet id true].
Proof.
  intros H.
  destruct (create_event_cases env user location guild_id w)
    as [[_ Heq]|[Hnil [(e & _ & Heq)|[(eid & _ & _ & Heq)|(eid & He & _ & Heq)]]]];
    rewrite Heq in H; simplify_eq.
  exists eid. by repeat split.
Qed.

(** C7.  A Start invoked while a qualifying active session exists (same
    user id, [end_time] null, and the same guild when a guild is given)
    answers "already active" and returns the world as it was: the store is
    unchanged and the trace has no new calendar call.  The qualifying
    session may be any stored one, or the one a successful Start of the same
    actor and scope has just written. *)
Theorem start_while_active_is_refused env user location guild_id w :
  (exists i d,
     store w !! i = Some d /\
     d !! "user_id" = Some (VInt (uid user)) /\
     d !! "end_time" = Some VNull /\
     match guild_id with
     | Some g => d !! "guild_id" = Some (VInt g)
     | None => True
     end) \/
  (exists env0 location0 w0 id,
     create_event env0 user location0 guild_id w0 = (w, Ret (Some id, None))) ->
  create_event env user location guild_id w =
    (w, Ret (None, Some msg_already_active)).
Proof.
  intros [(i & d & Hi & Hq)|(env0 & location0 & w0 & id & Hstart)].
  - eapply create_event_refuses; [done|]. by apply active_query_true.
  - apply create_event_success_store in Hstart
      as (eid & _ & _ & _ & Hst & _).
    eapply (create_event_refuses _ _ _ _ _ id).
    + rewrite Hst. apply lookup_insert_eq.
    + apply session_of_active_query, new_doc_session.
Qed.

Lemma start_while_active_is_refused_witness :
  let w1 := (create_event (calm 0 "doc1" "ev1") alice "home" (Some 5) nothing).1 in
  create_event (calm 0 "doc1" "ev1") alice "home" (Some 5) nothing
    = (w1, Ret (Some "doc1", None)) /\
  create_event (calm 60000000 "doc2" "ev2") alice "ieee" (Some 5) w1 =
    (w1, Ret (None, Some msg_already_active)).
Proof.
  split; [reflexivity|].
  apply start_while_active_is_refused. right.
  exists (calm 0 "doc1" "ev1"), "home", nothing, "doc1". reflexivity.
Defined.

(** C1.  From any store in which no actor has two active sessions in one
    scope, every store reached by a sequence of Start, Stop and Reconcile
    operations, whatever the calendar and the store answer, has at most one
    session with [end_time] null per (user id, guild id) pair.  In such a
    store Start refuses to create a second active session for a pair, and an
    operation other than Stop leaves every active session active. *)
Theorem single_active_session_guard (ops : list (Env * Op)) (w0 : World) :
  single_active (store w0) ->
  let w := run ops w0 in
  single_active (store w) /\
  (forall env user location guild_id i d,
     store w !! i = Some d -> session_of (uid user) guild_id d ->
     create_event env user location guild_id w =
       (w, Ret (None, Some msg_already_active))) /\
  (forall env op,
     (forall user guild_id, op <> Stop user guild_id) ->
     keeps_active (store w) (store (step env op w))).
Proof.
  intros Hinv w. split; [by apply run_single_active|]. split.
  - intros env user location guild_id i d Hi Hs.
    eapply create_event_refuses; [done|]. by apply session_of_active_query.
  - intros env [user location guild_id|user guild_id|] Hop; simpl.
    + apply create_event_keeps_active.
    + by destruct (Hop user guild_id).
    + apply extend_active_events_keeps_active.
Qed.

Lemma single_active_session_guard_witness :
  single_active (store nothing) /\
  single_active
    (store (run [(calm 0 "doc1" "ev1", Start alice "home" (Some 5));
                 (calm 1000000 "doc2" "ev2", Start alice "ieee" (Some 5));
                 (calm 420000000 "doc3" "ev3", Reconcile);
                 (calm 480000000 "doc4" "ev4", Stop alice (Some 5))]
                nothing)).
Proof.
  split; [apply single_active_empty|].
  apply (single_active_session_guard
           [(calm 0 "doc1" "ev1", Start alice "home" (Some 5));
            (calm 1000000 "doc2" "ev2", Start alice "ieee" (Some 5));
            (calm 420000000 "doc3" "ev3", Reconcile);
            (calm 480000000 "doc4" "ev4", Stop alice (Some 5))] nothing).
  apply single_active_empty.
Defined.

(** * Start: calendar first, then the store *)

Lemma new_events_app w t st :
  new_events w (mkWorld st (trace w ++ t)) = t.
Proof. unfold new_events. simpl. by rewrite drop_app_length. Qed.

Lemma new_events_same w : new_events w w = [].
Proof. unfold new_events. by rewrite drop_all. Qed.

(** C4, as stated, fails: when the calendar has created the event and the
    store then refuses the write, Start raises with one calendar event
    created and no session record persisted. *)
Lemma start_all_or_nothing_fails :
  ~ start_all_or_nothing (store_refuses 0 "doc1" "ev1") alice "home" (Some 5)
      nothing
  /\ create_event (store_refuses 0 "doc1" "ev1") alice "home" (Some 5) nothing
     = (mkWorld ∅ [CalInsert "Alice working at home" 0 (minutes 15) "home"
                     (inl "ev1");
                   StoreSet "doc1" false],
        Raise StoreError).
Proof.
  split; [|reflexivity].
  intros [(_ & Hp & _)|(Hc & _)]; vm_compute in Hp || vm_compute in Hc;
    discriminate.
Qed.

(** C4, amended.  Whenever Start returns to its caller, either exactly one
    calendar event is created and exactly one session record is persisted,
    or neither happens.  In particular, when the guard has passed and the
    calendar insert fails, Start returns the calendar-unavailable reply and
    the store is unchanged, so the query for that actor and scope still
    returns no active session. *)
Theorem start_all_or_nothing_when_it_returns env user location guild_id w :
  (exists r, (create_event env user location guild_id w).2 = Ret r) ->
  start_all_or_nothing env user location guild_id w /\
  (forall e,
     stream (active_query user guild_id) (store w) = [] ->
     insert_answer env = inr e ->
     let w' := (create_event env user location guild_id w).1 in
     (create_event env user location guild_id w).2 =
       Ret (None, Some (msg_calendar_unavailable e)) /\
     store w' = store w /\
     count_events is_persisted (new_events w w') = 0%nat /\
     stream (active_query user guild_id) (store w') = []).
Proof.
  intros [r Hr]. unfold start_all_or_nothing.
  destruct (create_event_cases env user location guild_id w)
    as [[Hne Heq]|[Hnil [(e & He & Heq)|[(eid & He & _ & Heq)|(eid & He & _ & Heq)]]]];
    rewrite Heq in *; simpl in *.
  - split; [right; by rewrite new_events_same|]. intros e Hnil; done.
  - split; [right; by rewrite new_events_app|].
    intros e' _ He'. rewrite new_events_app.
    assert (e' = e) as -> by congruence. by repeat split.
  - done.
  - split; [left; rewrite new_events_app; eauto 10|].
    intros e _ He'. congruence.
Qed.

Lemma start_all_or_nothing_when_it_returns_witness :
  let env := mkEnv 0 0 "doc1" (inr "503 backend error") (fun _ => false) true
               (fun _ => false) in
  (exists r, (create_event env alice "home" None nothing).2 = Ret r) /\
  start_all_or_nothing env alice "home" None nothing.
Proof.
  intros env.
  assert (exists r, (create_event env alice "home" None nothing).2 = Ret r)
    as H by (eexists; reflexivity).
  split; [exact H|].
  exact (proj1 (start_all_or_nothing_when_it_returns env alice "home" None
                  nothing H)).
Defined.

(** * Stop: choosing the session *)

Section Selection.

Lemma string_ltb_irrefl s : String.ltb s s = false.
Proof.
  unfold String.ltb.
  assert (String.compare s s = Eq) as ->; [|done].
  induction s as [|c s IH]; simpl; [done|].
  unfold Ascii.compare. by rewrite N.compare_refl.
Qed.

Lemma string_ltb_false_leb a b :
  String.ltb b a = false <-> String.leb a b = true.
Proof.
  unfold String.ltb, String.leb. rewrite (String.compare_antisym b a).
  destruct (String.compare a b); simpl; split; congruence.
Qed.

Lemma string_ltb_true_leb a b : String.ltb a b = true -> String.leb a b = true.
Proof. unfold String.ltb, String.leb. by destruct (String.compare a b). Qed.

Lemma string_leb_trans a b c :
  String.leb a b = true -> String.leb b c = true -> String.leb a c = true.
Proof.
  intros Hab Hbc. apply Is_true_true.
  change (String.le a c). trans b; by apply Is_true_true.
Qed.

Lemma _get_start_not_null data : _get_start data <> VNull.
Proof.
  unfold _get_start. destruct (data !! "start_time") as [[| | |]|]; simpl;
    try done; by destruct (negb _).
Qed.

Lemma py_gt_irrefl k : k <> VNull -> py_gt k k = Ret false.
Proof.
  destruct k; simpl; intros H; try done.
  - by rewrite Z.ltb_irrefl.
  - by rewrite string_ltb_irrefl.
  - by rewrite Z.ltb_irrefl.
Qed.

Lemma py_gt_true_flip a b : py_gt a b = Ret true -> py_gt b a = Ret false.
Proof.
  destruct a, b; simpl; intros H; simplify_eq; f_equal.
  - apply Z.ltb_ge. apply Z.ltb_lt in H. lia.
  - apply string_ltb_false_leb. by apply string_ltb_true_leb.
  - apply Z.ltb_ge. apply Z.ltb_lt in H. lia.
Qed.

Lemma py_gt_false_trans a b c :
  py_gt a b = Ret false -> py_gt b c = Ret false -> py_gt a c = Ret false.
Proof.
  destruct a, b, c; simpl; intros Hab Hbc; simplify_eq; f_equal.
  - apply Z.ltb_ge. apply Z.ltb_ge in Hab. apply Z.ltb_ge in Hbc. lia.
  - apply string_ltb_false_leb. apply string_ltb_false_leb in Hab, Hbc.
    by eapply string_leb_trans.
  - apply Z.ltb_ge. apply Z.ltb_ge in Hab. apply Z.ltb_ge in Hbc. lia.
Qed.

Lemma max_from_spec best rest x :
  max_from best (_get_start best.2) rest = Ret x ->
  x ∈ best :: rest /\
  forall y, y ∈ best :: rest ->
    py_gt (_get_start y.2) (_get_start x.2) = Ret false.
Proof.
  revert best. induction rest as [|item rest IH]; intros best Hmax.
  - simpl in Hmax. simplify_eq. split; [left|].
    intros y ->%list_elem_of_singleton.
    apply py_gt_irrefl, _get_start_not_null.
  - simpl in Hmax.
    destruct (py_gt (_get_start item.2) (_get_start best.2)) as [[|]|e]
      eqn:Hgt; [| |done].
    + destruct (IH _ Hmax) as [Hin Hle]. split; [by right|].
      intros y [->|Hy]%elem_of_cons; [|by apply Hle].
      eapply py_gt_false_trans; [by apply py_gt_true_flip|].
      apply Hle. left.
    + destruct (IH _ Hmax) as [Hin Hle]. split.
      * apply elem_of_cons in Hin as [->|Hin]; [left|right; by right].
      * intros y [->|[->|Hy]%elem_of_cons]%elem_of_cons.
        -- apply Hle. left.
        -- eapply py_gt_false_trans; [done|]. apply Hle. left.
        -- apply Hle. by right.
Qed.

Lemma py_max_spec snap x :
  py_max snap = Ret x ->
  x ∈ snap /\
  forall y, y ∈ snap -> py_gt (_get_start y.2) (_get_start x.2) = Ret false.
Proof. destruct snap as [|item rest]; [done|]. apply max_from_spec. Qed.

End Selection.

Section StopCases.

Lemma stop_candidates_scoped user guild_id (st : Store) :
  stream (active_query user guild_id) st <> [] ->
  stop_candidates user guild_id st = stream (active_query user guild_id) st.
Proof.
  intros Hne. unfold stop_candidates.
  by destruct (stream (active_query user guild_id) st).
Qed.

Lemma stop_candidates_fallback user guild_id (st : Store) :
  stream (active_query user guild_id) st = [] ->
  stop_candidates user guild_id st = stream (active_query user None) st.
Proof.
  intros Hnil. unfold stop_candidates. rewrite Hnil.
  change (is_nil (@nil (string * Data))) with true. rewrite andb_true_l.
  case_bool_decide as Hg; [done|].
  destruct guild_id as [g|]; [done|by symmetry].
Qed.

Lemma elem_of_stop_candidates user guild_id (st : Store) i d :
  (i, d) ∈ stop_candidates user guild_id st ->
  st !! i = Some d /\ active_query user None d = true.
Proof.
  unfold stop_candidates.
  destruct (is_nil _ && _); intros [Hi Hq]%elem_of_stream; split; try done.
  apply active_query_true in Hq as (Hu & Ha & _).
  by apply active_query_true.
Qed.

Lemma stop_event_no_candidates env user guild_id w :
  stop_candidates user guild_id (store w) = [] ->
  stop_event env user guild_id w = (w, Ret (None, Some msg_no_active)).
Proof. intros Hnil. unfold stop_event, stop_event_try. by rewrite Hnil. Qed.

Lemma stop_event_type_error env user guild_id w e :
  py_max (stop_candidates user guild_id (store w)) = Raise e ->
  stop_candidates user guild_id (store w) <> [] ->
  stop_event env user guild_id w =
    (emit (Log "Error stopping event" None) w, Ret (None, Some msg_stop_failed)).
Proof.
  intros Hmax Hne. unfold stop_event, stop_event_try. rewrite Hmax.
  by destruct (stop_candidates user guild_id (store w)).
Qed.

(** Stop once [max] has chosen the document [id]. *)
Lemma stop_event_selected env user guild_id w id data :
  py_max (stop_candidates user guild_id (store w)) = Ret (id, data) ->
  let w1 := stop_patch env id (data !! "calendar_event_id") (now_utc env) w in
  stop_event env user guild_id w =
    if update_fails env id then
      (emit (Log "Error stopping event" None) (emit (StoreUpdate id false) w1),
       Ret (None, Some msg_stop_failed))
    else
      (put_store (<[id := stop_fields env (now_utc env) ∪ data]> (store w))
                 (emit (StoreUpdate id true) w1),
       Ret (Some id, None)).
Proof.
  intros Hmax w1. unfold stop_event, stop_event_try. rewrite Hmax.
  pose proof (py_max_spec _ _ Hmax) as [Hin _].
  apply elem_of_stop_candidates in Hin as [Hid _].
  destruct (stop_candidates user guild_id (store w)); [done|]. simpl.
  fold w1. unfold doc_update. destruct (update_fails env id); [done|].
  assert (store w1 = store w) as Hst by apply store_stop_patch.
  rewrite Hst, Hid. done.
Qed.

(** A Stop that answers with an id has chosen that document by [max]. *)
Lemma stop_event_success env user guild_id w w' id :
  stop_event env user guild_id w = (w', Ret (Some id, None)) ->
  exists data,
    py_max (stop_candidates user guild_id (store w)) = Ret (id, data) /\
    update_fails env id = false.
Proof.
  intros Hstop.
  destruct (stop_candidates user guild_id (store w)) as [|c l] eqn:Hc.
  { by rewrite stop_event_no_candidates in Hstop. }
  destruct (py_max (stop_candidates user guild_id (store w)))
    as [[id' data]|e] eqn:Hmax.
  - rewrite (stop_event_selected _ _ _ _ _ _ Hmax) in Hstop.
    destruct (update_fails env id') eqn:Hup; simplify_eq.
    exists data. by rewrite <- Hc.
  - rewrite (stop_event_type_error _ _ _ _ _ Hmax) in Hstop by (by rewrite Hc).
    simplify_eq.
Qed.

End StopCases.



(** * Reconcile: the top-up policy *)

Section Pass.

Variable env : Env.
Variable now : Z.
Hypothesis store_accepts : forall i, update_fails env i = false.

#[local] Arguments truthy : simpl never.

Lemma extend_one_accepted doc w :
  store w !! doc.1 = Some doc.2 ->
  extend_one env now doc w =
    (mkWorld (<[doc.1 := session_after env now doc]> (store w))
             (trace w ++ session_events env now doc), Ret tt).
Proof.
  intros Hdoc. unfold extend_one, session_events, session_after, due.
  destruct (doc.2 !! "calendar_event_id") as [eid|] eqn:Heid; simpl.
  2:{ rewrite insert_id by done. by rewrite app_nil_r, world_eta. }
  destruct (truthy (Some eid)); simpl.
  2:{ rewrite insert_id by done. by rewrite app_nil_r, world_eta. }
  destruct (_ <=? _); simpl.
  2:{ rewrite insert_id by done. by rewrite app_nil_r, world_eta. }
  destruct (patch_fails env doc.1); simpl.
  { rewrite insert_id by done. unfold emit; simpl.
    by rewrite <- app_assoc. }
  unfold doc_update. rewrite store_accepts. simpl. rewrite Hdoc.
  unfold put_store, emit; simpl. by rewrite <- app_assoc.
Qed.

(** A pass over documents with distinct ids, each as the store has it. *)
Lemma extend_loop_accepted active w :
  NoDup active.*1 ->
  (forall i d, (i, d) ∈ active -> store w !! i = Some d) ->
  exists st',
    extend_loop env now active w =
      (mkWorld st' (trace w ++ flat_map (session_events env now) active),
       Ret tt) /\
    (forall i d, (i, d) ∈ active ->
       st' !! i = Some (session_after env now (i, d))) /\
    (forall i, i ∉ active.*1 -> st' !! i = store w !! i).
Proof.
  revert w. induction active as [|[i d] rest IH]; intros w Hnd Hin.
  - exists (store w). simpl. rewrite app_nil_r, world_eta.
    split; [done|]. split; [|done]. intros i d Hi. by apply elem_of_nil in Hi.
  - apply NoDup_cons in Hnd as [Hi Hnd]. simpl in Hi.
    simpl. rewrite extend_one_accepted by (apply Hin; left). simpl.
    set (w1 := mkWorld (<[i := session_after env now (i, d)]> (store w))
                 (trace w ++ session_events env now (i, d))).
    destruct (IH w1 Hnd) as (st' & Heq & Hdocs & Hrest).
    { intros j dj Hj. simpl. rewrite lookup_insert_ne.
      - apply Hin. by right.
      - intros ->. apply Hi. apply list_elem_of_fmap. by exists (j, dj). }
    exists st'. split; [|split].
    + rewrite Heq. simpl. by rewrite <- app_assoc.
    + intros j dj [Hj|Hj]%elem_of_cons; [|by apply Hdocs].
      simplify_eq. rewrite (Hrest _ Hi). simpl. apply lookup_insert_eq.
    + intros j Hj. rewrite not_elem_of_cons in Hj. destruct Hj as [Hne Hj].
      rewrite (Hrest _ Hj). simpl. by rewrite lookup_insert_ne.
Qed.

End Pass.

Section PassLemmas.

#[local] Arguments truthy : simpl never.

Lemma elem_of_active_sessions (st : Store) i d :
  (i, d) ∈ active_sessions st <-> st !! i = Some d /\ is_active d.
Proof.
  unfold active_sessions. rewrite elem_of_stream, where_eq_true.
  unfold events_ref, is_active. tauto.
Qed.

(** A pass in which the store accepts every update: the calls are those of
    the sessions in turn, and every session is left as the policy says. *)
Lemma extend_active_events_accepted env w :
  (forall i, update_fails env i = false) ->
  exists st',
    extend_active_events env w =
      (mkWorld st'
         (trace w ++ flat_map (session_events env (now_utc env))
                       (active_sessions (store w))), Ret tt) /\
    (forall i d, (i, d) ∈ active_sessions (store w) ->
       st' !! i = Some (session_after env (now_utc env) (i, d))) /\
    (forall i, i ∉ (active_sessions (store w)).*1 -> st' !! i = store w !! i).
Proof.
  intros Hacc. unfold extend_active_events, extend_try.
  destruct (extend_loop_accepted env (now_utc env) Hacc
              (active_sessions (store w)) w) as (st' & Heq & Hdocs & Hrest).
  { apply NoDup_stream_ids. }
  { intros i d Hin. by apply elem_of_active_sessions in Hin as [? _]. }
  destruct (active_sessions (store w)) as [|doc rest] eqn:Hact.
  - exists (store w). simpl. rewrite app_nil_r, world_eta.
    split; [done|]. split; [|done]. intros i d Hi. by apply elem_of_nil in Hi.
  - exists st'. change (is_nil (doc :: rest)) with false. cbv iota.
    rewrite Heq. done.
Qed.

(** The one document a query finds in a store it found nothing in before
    the document was written. *)
Lemma stream_insert_only q (st : Store) i d :
  stream q st = [] -> q d = true -> stream q (<[i := d]> st) = [(i, d)].
Proof.
  unfold stream. intros Hnil Hq.
  apply map_to_list_empty_iff in Hnil.
  rewrite map_filter_insert_True by done.
  rewrite Hnil, insert_empty. apply map_to_list_singleton.
Qed.

End PassLemmas.

#[local] Arguments truthy : simpl never.

(** C2.  In a Reconcile pass at time [now] in which the store accepts its
    updates, the calls of the pass are those of its active sessions in turn,
    and for every active session with a calendar event id: a [calendar_end]
    that is missing or not a timestamp counts as [now]; if
    [calendar_end - now <= TOP_UP_THRESHOLD] the pass patches the event's end
    to exactly [now + ROLLING_HORIZON] and then, the patch having succeeded,
    stores [calendar_end = now + ROLLING_HORIZON] and
    [last_extend_check = now], leaving the other fields; if
    [calendar_end - now > TOP_UP_THRESHOLD] the pass makes no call for the
    session and leaves its document unchanged.  So a session whose
    [calendar_end] is T+15m is skipped by a pass at T+4m and extended to
    T+21m by a pass at T+6m. *)
Theorem reconcile_top_up_policy env w i d eid :
  (forall j, update_fails env j = false) ->
  (i, d) ∈ active_sessions (store w) ->
  d !! "calendar_event_id" = Some eid -> truthy (Some eid) = true ->
  let now := now_utc env in
  let w' := (extend_active_events env w).1 in
  let current_end :=
    match d !! "calendar_end" with Some (VTime t) => t | _ => now end in
  new_events w w' =
    flat_map (session_events env now) (active_sessions (store w)) /\
  (current_end - now <= TOP_UP_THRESHOLD ->
   session_events env now (i, d) =
     CalPatch eid (now + ROLLING_HORIZON) (negb (patch_fails env i))
     :: (if patch_fails env i
         then [Log "Failed to extend calendar event" (Some eid)]
         else [StoreUpdate i true]) /\
   (patch_fails env i = false ->
    exists d', store w' !! i = Some d' /\
      d' !! "calendar_end" = Some (VTime (now + ROLLING_HORIZON)) /\
      d' !! "last_extend_check" = Some (VTime now) /\
      forall k, k <> "calendar_end" -> k <> "last_extend_check" ->
                d' !! k = d !! k)) /\
  (current_end - now > TOP_UP_THRESHOLD ->
   session_events env now (i, d) = [] /\ store w' !! i = Some d) /\
  (forall T, d !! "calendar_end" = Some (VTime (T + minutes 15)) ->
     (now = T + minutes 4 ->
      session_events env now (i, d) = [] /\ store w' !! i = Some d) /\
     (now = T + minutes 6 -> patch_fails env i = false ->
      CalPatch eid (T + minutes 21) true ∈ new_events w w' /\
      exists d', store w' !! i = Some d' /\
        d' !! "calendar_end" = Some (VTime (T + minutes 21)) /\
        d' !! "last_extend_check" = Some (VTime (T + minutes 6)))).
Proof.
  intros Hacc Hin Heid Htr now w' current_end.
  destruct (extend_active_events_accepted env w Hacc)
    as (st' & Heq & Hdocs & _).
  assert (new_events w w' =
          flat_map (session_events env now) (active_sessions (store w)))
    as Hev.
  { unfold w'. rewrite Heq. simpl. apply new_events_app. }
  assert (store w' !! i = Some (session_after env now (i, d))) as Hst.
  { unfold w'. rewrite Heq. simpl. by apply Hdocs. }
  assert (current_end_of d now = current_end) as Hce.
  { unfold current_end_of, current_end, is_datetime.
    by destruct (d !! "calendar_end") as [[| | |]|]. }
  assert (current_end - now <= TOP_UP_THRESHOLD ->
          session_events env now (i, d) =
            CalPatch eid (now + ROLLING_HORIZON) (negb (patch_fails env i))
            :: (if patch_fails env i
                then [Log "Failed to extend calendar event" (Some eid)]
                else [StoreUpdate i true]) /\
          (patch_fails env i = false ->
           exists d', store w' !! i = Some d' /\
             d' !! "calendar_end" = Some (VTime (now + ROLLING_HORIZON)) /\
             d' !! "last_extend_check" = Some (VTime now) /\
             forall k, k <> "calendar_end" -> k <> "last_extend_check" ->
                       d' !! k = d !! k)) as Hdue.
  { intros Hle.
    assert (due d now = true) as Hd.
    { unfold due. rewrite Hce. by apply Z.leb_le. }
    split.
    - unfold session_events. simpl. rewrite Heid, Htr, Hd. simpl.
      by destruct (patch_fails env i).
    - intros Hok. eexists. split; [exact Hst|].
      unfold session_after. simpl. rewrite Heid, Htr, Hd, Hok. simpl.
      split; [|split].
      + unfold extend_fields. rewrite lookup_union_l'; by simplify_map_eq.
      + unfold extend_fields. rewrite lookup_union_l'; by simplify_map_eq.
      + intros k Hk1 Hk2. by apply extend_fields_lookup. }
  assert (current_end - now > TOP_UP_THRESHOLD ->
          session_events env now (i, d) = [] /\ store w' !! i = Some d)
    as Hskip.
  { intros Hgt.
    assert (due d now = false) as Hd.
    { unfold due. rewrite Hce. apply Z.leb_gt. lia. }
    split.
    - unfold session_events. simpl. by rewrite Heid, Htr, Hd.
    - rewrite Hst. unfold session_after. simpl. by rewrite Heid, Htr, Hd. }
  split; [done|]. split; [done|]. split; [done|].
  intros T HT. unfold current_end in Hdue, Hskip. rewrite HT in Hdue, Hskip.
  split.
  - intros Hnow. apply Hskip. rewrite Hnow. unfold TOP_UP_THRESHOLD, minutes.
    lia.
  - intros Hnow Hok. destruct Hdue as [Hevs Hdoc].
    { rewrite Hnow. unfold TOP_UP_THRESHOLD, minutes. lia. }
    assert (now + ROLLING_HORIZON = T + minutes 21) as Hnew.
    { rewrite Hnow. unfold ROLLING_HORIZON, minutes. lia. }
    split.
    + rewrite Hev. apply list_elem_of_In, in_flat_map.
      exists (i, d). split; [by apply list_elem_of_In|].
      rewrite Hevs, Hok, Hnew. left. done.
    + destruct (Hdoc Hok) as (d' & Hd' & Hc & Hl & _). exists d'.
      rewrite <- Hnew, <- Hnow. done.
Qed.

Lemma reconcile_top_up_policy_witness :
  let env := calm (minutes 6) "doc2" "ev2" in
  let w' := (extend_active_events env started).1 in
  (forall j, update_fails env j = false) /\
  ("doc1", started_doc) ∈ active_sessions (store started) /\
  started_doc !! "calendar_event_id" = Some (VStr "ev1") /\
  truthy (Some (VStr "ev1")) = true /\
  CalPatch (VStr "ev1") (minutes 21) true ∈ new_events started w' /\
  exists d', store w' !! "doc1" = Some d' /\
    d' !! "calendar_end" = Some (VTime (minutes 21)) /\
    d' !! "last_extend_check" = Some (VTime (minutes 6)).
Proof.
  intros env w'.
  assert (forall j, update_fails env j = false) as H1 by reflexivity.
  assert (("doc1", started_doc) ∈ active_sessions (store started)) as H2.
  { apply elem_of_active_sessions. split; reflexivity. }
  assert (started_doc !! "calendar_event_id" = Some (VStr "ev1")) as H3
    by reflexivity.
  assert (truthy (Some (VStr "ev1")) = true) as H4 by reflexivity.
  split; [exact H1|]. split; [exact H2|]. split; [exact H3|].
  split; [exact H4|].
  destruct (reconcile_top_up_policy env started "doc1" started_doc
              (VStr "ev1") H1 H2 H3 H4) as (_ & _ & _ & Hscen).
  destruct (Hscen 0 eq_refl) as [_ Hsix].
  exact (Hsix eq_refl eq_refl).
Defined.

(** * Reconcile: failures *)



Example pass_goes_on_after_failed_patch :
  new_events two_started (extend_active_events refuses_doc1 two_started).1 =
    [CalPatch (VStr "ev1") (minutes 21) false;
     Log "Failed to extend calendar event" (Some (VStr "ev1"));
     CalPatch (VStr "ev2") (minutes 21) true;
     StoreUpdate "doc2" true].
Proof. reflexivity. Qed.

(** A refused store update ends the pass early; the pass still returns. *)
Example pass_returns_after_refused_update :
  extend_active_events (update_refused (minutes 6)) two_started =
    (mkWorld (store two_started)
       (trace two_started ++
          [CalPatch (VStr "ev1") (minutes 21) true;
           StoreUpdate "doc1" false;
           Log "Error in extend_active_events loop" None]),
     Ret tt).
Proof. reflexivity. Qed.

Section Due.

Lemma session_events_due env now i d eid :
  d !! "calendar_event_id" = Some eid -> truthy (Some eid) = true ->
  due d now = true ->
  session_events env now (i, d) =
    CalPatch eid (now + ROLLING_HORIZON) (negb (patch_fails env i))
    :: (if patch_fails env i
        then [Log "Failed to extend calendar event" (Some eid)]
        else [StoreUpdate i true]).
Proof.
  intros Heid Htr Hdue. unfold session_events. simpl.
  rewrite Heid, Htr, Hdue. simpl. by destruct (patch_fails env i).
Qed.

Lemma session_after_due env now i d eid :
  d !! "calendar_event_id" = Some eid -> truthy (Some eid) = true ->
  due d now = true -> patch_fails env i = false ->
  session_after env now (i, d) = extend_fields now (now + ROLLING_HORIZON) ∪ d.
Proof.
  intros Heid Htr Hdue Hok. unfold session_after. simpl.
  by rewrite Heid, Htr, Hdue, Hok.
Qed.

Lemma extend_fields_calendar_end now new_end (d : Data) :
  (extend_fields now new_end ∪ d) !! "calendar_end" = Some (VTime new_end).
Proof. unfold extend_fields. rewrite lookup_union_l'; by simplify_map_eq. Qed.

Lemma extend_fields_last_check now new_end (d : Data) :
  (extend_fields now new_end ∪ d) !! "last_extend_check" = Some (VTime now).
Proof. unfold extend_fields. rewrite lookup_union_l'; by simplify_map_eq. Qed.

(** In a pass whose updates the store accepts, a due session gets its
    patch call, and its document follows when the patch succeeds. *)
Lemma pass_reaches_due_session env w i d eid :
  (forall j, update_fails env j = false) ->
  (i, d) ∈ active_sessions (store w) ->
  d !! "calendar_event_id" = Some eid -> truthy (Some eid) = true ->
  due d (now_utc env) = true ->
  let w' := (extend_active_events env w).1 in
  CalPatch eid (now_utc env + ROLLING_HORIZON) (negb (patch_fails env i))
    ∈ new_events w w' /\
  (patch_fails env i = false ->
   store w' !! i =
     Some (extend_fields (now_utc env) (now_utc env + ROLLING_HORIZON) ∪ d)).
Proof.
  intros Hacc Hin Heid Htr Hdue w'.
  destruct (extend_active_events_accepted env w Hacc)
    as (st' & Heq & Hdocs & _).
  unfold w'. rewrite Heq. simpl. rewrite new_events_app. split.
  - apply list_elem_of_In, in_flat_map. exists (i, d).
    split; [by apply list_elem_of_In|].
    rewrite (session_events_due _ _ _ _ _ Heid Htr Hdue). by left.
  - intros Hok. rewrite (Hdocs _ _ Hin).
    by rewrite (session_after_due _ _ _ _ _ Heid Htr Hdue Hok).
Qed.

End Due.

(** * Stop: when the store refuses the update *)

(** C10.  When Stop has chosen a session with a calendar event id, the
    calendar patch succeeds and the store update then raises, Stop catches
    the exception and answers with its generic error; the store is as it
    was, so the session still has [end_time] null, is still listed by the
    active-session queries, and a later Reconcile pass for which it is due
    patches its calendar event again, although the event's end was already
    set to the stop time. *)
Theorem stop_update_failure_leaves_session_active env user guild_id w id data
    eid :
  py_max (stop_candidates user guild_id (store w)) = Ret (id, data) ->
  data !! "calendar_event_id" = Some eid -> truthy (Some eid) = true ->
  patch_fails env id = false -> update_fails env id = true ->
  let w' := (stop_event env user guild_id w).1 in
  stop_event env user guild_id w = (w', Ret (None, Some msg_stop_failed)) /\
  new_events w w' =
    [CalPatch eid (now_utc env) true; StoreUpdate id false;
     Log "Error stopping event" None] /\
  store w' = store w /\
  data !! "end_time" = Some VNull /\
  (id, data) ∈ active_sessions (store w') /\
  (id, data) ∈ stop_candidates user guild_id (store w') /\
  (forall env',
     (forall j, update_fails env' j = false) ->
     due data (now_utc env') = true ->
     let w'' := (extend_active_events env' w').1 in
     CalPatch eid (now_utc env' + ROLLING_HORIZON) (negb (patch_fails env' id))
       ∈ new_events w' w'' /\
     (patch_fails env' id = false ->
      exists d', store w'' !! id = Some d' /\
        d' !! "end_time" = Some VNull /\
        d' !! "calendar_end" =
          Some (VTime (now_utc env' + ROLLING_HORIZON)))).
Proof.
  intros Hmax Heid Htr Hpatch Hupd w'.
  pose proof (py_max_spec _ _ Hmax) as [Hcand _].
  pose proof (elem_of_stop_candidates _ _ _ _ _ Hcand) as [Hid Hq].
  apply active_query_true in Hq as (_ & Hact & _).
  assert (stop_event env user guild_id w =
          (mkWorld (store w)
             (trace w ++ [CalPatch eid (now_utc env) true;
                          StoreUpdate id false;
                          Log "Error stopping event" None]),
           Ret (None, Some msg_stop_failed))) as Heq.
  { rewrite (stop_event_selected _ _ _ _ _ _ Hmax), Hupd.
    unfold stop_patch. rewrite Heid, Htr, Hpatch. unfold emit. simpl.
    by rewrite <- !app_assoc. }
  unfold w'. rewrite Heq. simpl.
  split; [done|]. split; [apply new_events_app|]. split; [done|].
  split; [done|]. split; [by apply elem_of_active_sessions|].
  split; [done|].
  intros env' Hacc Hdue.
  set (w1 := mkWorld (store w) _).
  destruct (pass_reaches_due_session env' w1 id data eid Hacc) as [Hcall Hdoc];
    try done.
  { by apply elem_of_active_sessions. }
  split; [done|]. intros Hok. eexists. split; [by apply Hdoc|].
  split; [by rewrite extend_fields_lookup|apply extend_fields_calendar_end].
Qed.

Lemma stop_update_failure_leaves_session_active_witness :
  let env := update_refused (minutes 8) in
  py_max (stop_candidates alice (Some 5) (store started))
    = Ret ("doc1", started_doc) /\
  stop_event env alice (Some 5) started =
    (mkWorld (store started)
       (trace started ++ [CalPatch (VStr "ev1") (minutes 8) true;
                          StoreUpdate "doc1" false;
                          Log "Error stopping event" None]),
     Ret (None, Some msg_stop_failed)).
Proof.
  intros env.
  assert (py_max (stop_candidates alice (Some 5) (store started))
          = Ret ("doc1", started_doc)) as H by reflexivity.
  split; [exact H|].
  destruct (stop_update_failure_leaves_session_active env alice (Some 5)
              started "doc1" started_doc (VStr "ev1") H eq_refl eq_refl
              eq_refl eq_refl) as [Hstop _].
  rewrite Hstop. reflexivity.
Defined.

(** * Stop: what is written *)

Section StopFields.

Lemma stop_fields_end_time env stop_ts (d : Data) :
  (stop_fields env stop_ts ∪ d) !! "end_time"
    = Some (VTime (SERVER_TIMESTAMP env)).
Proof. unfold stop_fields. rewrite lookup_union_l'; by simplify_map_eq. Qed.

Lemma stop_fields_calendar_end env stop_ts (d : Data) :
  (stop_fields env stop_ts ∪ d) !! "calendar_end" = Some (VTime stop_ts).
Proof. unfold stop_fields. rewrite lookup_union_l'; by simplify_map_eq. Qed.

Lemma stop_fields_last_check env stop_ts (d : Data) :
  (stop_fields env stop_ts ∪ d) !! "last_extend_check" = Some (VTime stop_ts).
Proof. unfold stop_fields. rewrite lookup_union_l'; by simplify_map_eq. Qed.

(** The calls of [stop_patch]. *)
Lemma trace_stop_patch env id event_id stop_ts w :
  trace (stop_patch env id event_id stop_ts w) =
    trace w ++
    match event_id with
    | Some eid =>
        if truthy event_id then
          CalPatch eid stop_ts (negb (patch_fails env id))
          :: (if patch_fails env id
              then [Log "Failed to patch calendar event end on stop" None]
              else [])
        else []
    | None => []
    end.
Proof.
  unfold stop_patch. destruct event_id as [eid|]; [|by rewrite app_nil_r].
  destruct (truthy (Some eid)); [|by rewrite app_nil_r].
  destruct (patch_fails env id); unfold emit; simpl; [|done].
  by rewrite <- app_assoc.
Qed.

(** The session a Start has just written is the one candidate of a Stop of
    the same actor in the same scope. *)
Lemma stop_candidates_after_start env0 user location guild_id w0 w id0 :
  create_event env0 user location guild_id w0 = (w, Ret (Some id0, None)) ->
  exists eid,
    insert_answer env0 = inl eid /\
    stop_candidates user guild_id (store w) =
      [(id0, new_doc_data user location guild_id (now_utc env0)
               (now_utc env0 + ROLLING_HORIZON) eid)].
Proof.
  intros (eid & He & -> & Hnil & Hst & _)%create_event_success_store.
  exists eid. split; [done|].
  assert (stream (active_query user guild_id) (store w) =
          [(auto_id env0,
            new_doc_data user location guild_id (now_utc env0)
              (now_utc env0 + ROLLING_HORIZON) eid)]) as Hs.
  { rewrite Hst. apply stream_insert_only; [done|].
    apply session_of_active_query, new_doc_session. }
  rewrite stop_candidates_scoped; by rewrite Hs.
Qed.

End StopFields.

(** C3, as stated, fails: Stop writes [firestore.SERVER_TIMESTAMP] to
    [end_time], the time at which the store commits the write, and its own
    clock reading to [calendar_end].  Here Alice starts at 0 and stops at
    minute 8, and the store commits a quarter of a second later. *)
Lemma stop_end_time_is_not_the_stop_time :
  stop_event (calm (minutes 8) "doc2" "ev2") alice (Some 5) started
    = (stopped, Ret (Some "doc1", None)) /\
  (exists d, store stopped !! "doc1" = Some d /\
     d !! "end_time" = Some (VTime (minutes 8 + 250000)) /\
     d !! "calendar_end" = Some (VTime (minutes 8))) /\
  ~ stopped_at (store stopped) "doc1" (minutes 8).
Proof.
  split; [reflexivity|]. split.
  - eexists. split; [reflexivity|]. split; reflexivity.
  - intros (d & Hd & He & _).
    assert (store stopped !! "doc1" ≫= (.!! "end_time")
            = Some (VTime (minutes 8 + 250000))) as Hreal by reflexivity.
    rewrite Hd in Hreal. simpl in Hreal. rewrite He in Hreal.
    vm_compute in Hreal. discriminate.
Qed.

Lemma truthy_VStr s : truthy (Some (VStr s)) = true <-> s <> "".
Proof.
  unfold truthy. rewrite negb_true_iff. split.
  - intros H ->. done.
  - intros H. by apply String.eqb_neq.
Qed.

(** C3, amended.  After every successful Stop the stopped session has
    [end_time] non-null, namely the server timestamp of the write, which
    need not be the stop time; its stored [calendar_end] and
    [last_extend_check] both equal the stop time computed as [now_utc()];
    and, the session having a calendar event id, a calendar patch call was
    issued carrying that stop time.  A Stop that follows a Start of the
    same actor in the same scope stops the session that Start created. *)
Theorem successful_stop_record env user guild_id w w' id :
  stop_event env user guild_id w = (w', Ret (Some id, None)) ->
  (exists data d',
     (id, data) ∈ stop_candidates user guild_id (store w) /\
     store w' !! id = Some d' /\
     d' !! "end_time" = Some (VTime (SERVER_TIMESTAMP env)) /\
     d' !! "calendar_end" = Some (VTime (now_utc env)) /\
     d' !! "last_extend_check" = Some (VTime (now_utc env)) /\
     (forall eid,
        data !! "calendar_event_id" = Some eid -> truthy (Some eid) = true ->
        CalPatch eid (now_utc env) (negb (patch_fails env id))
          ∈ new_events w w')) /\
  (forall env0 location w0 id0,
     create_event env0 user location guild_id w0 = (w, Ret (Some id0, None)) ->
     id = id0 /\
     exists eid, insert_answer env0 = inl eid /\
       (eid <> "" ->
        CalPatch (VStr eid) (now_utc env) (negb (patch_fails env id))
          ∈ new_events w w')).
Proof.
  intros Hstop.
  destruct (stop_event_success _ _ _ _ _ _ Hstop) as (data & Hmax & Hupd).
  pose proof (py_max_spec _ _ Hmax) as [Hcand _].
  rewrite (stop_event_selected _ _ _ _ _ _ Hmax), Hupd in Hstop.
  injection Hstop as Hw'.
  assert (forall eid,
            data !! "calendar_event_id" = Some eid ->
            truthy (Some eid) = true ->
            CalPatch eid (now_utc env) (negb (patch_fails env id))
              ∈ new_events w w') as Hpatch.
  { intros eid Heid Htr. rewrite <- Hw'. unfold put_store; simpl.
    rewrite trace_stop_patch, Heid, Htr.
    rewrite <- app_assoc, new_events_app. left. }
  split.
  - exists data, (stop_fields env (now_utc env) ∪ data).
    split; [done|]. split.
    { rewrite <- Hw'. simpl. apply lookup_insert_eq. }
    split; [apply stop_fields_end_time|].
    split; [apply stop_fields_calendar_end|].
    split; [apply stop_fields_last_check|done].
  - intros env0 location w0 id0 Hstart.
    destruct (stop_candidates_after_start _ _ _ _ _ _ _ Hstart)
      as (eid & He & Hc).
    rewrite Hc in Hmax. simpl in Hmax. injection Hmax as <- <-.
    split; [done|]. exists eid. split; [done|].
    intros Hne. apply Hpatch; [done|]. by apply truthy_VStr.
Qed.

Lemma successful_stop_record_witness :
  stop_event (calm (minutes 8) "doc2" "ev2") alice (Some 5) started
    = (stopped, Ret (Some "doc1", None)) /\
  exists data d',
    ("doc1", data) ∈ stop_candidates alice (Some 5) (store started) /\
    store stopped !! "doc1" = Some d' /\
    d' !! "end_time" = Some (VTime (minutes 8 + 250000)) /\
    d' !! "calendar_end" = Some (VTime (minutes 8)) /\
    d' !! "last_extend_check" = Some (VTime (minutes 8)) /\
    (forall eid,
       data !! "calendar_event_id" = Some eid -> truthy (Some eid) = true ->
       CalPatch eid (minutes 8) true ∈ new_events started stopped).
Proof.
  assert (stop_event (calm (minutes 8) "doc2" "ev2") alice (Some 5) started
          = (stopped, Ret (Some "doc1", None))) as H by reflexivity.
  split; [exact H|].
  exact (proj1 (successful_stop_record _ _ _ _ _ _ H)).
Defined.

(** * Stop: calendar first, then the store *)




(** * Chat: the start command *)

Section Strings.

Lemma app_String c (s t : string) : String c s +:+ t = String c (s +:+ t).
Proof. reflexivity. Qed.

Lemma app_empty (t : string) : "" +:+ t = t.
Proof. reflexivity. Qed.

Lemma prefix_spec p s : String.prefix p s = true <-> exists post, s = p +:+ post.
Proof.
  revert s. induction p as [|a p IH]; intros s.
  - split; [intros _; by exists s|]. intros _. by destruct s.
  - destruct s as [|b s]; simpl.
    + split; [done|]. intros [post H]. rewrite app_String in H. done.
    + destruct (ascii_dec a b) as [->|Hne].
      * rewrite IH. split; intros [post H]; exists post.
        -- rewrite app_String. by f_equal.
        -- rewrite app_String in H. by simplify_eq.
      * split; [done|]. intros [post H]. rewrite app_String in H.
        by simplify_eq.
Qed.

Lemma contains_unfold p s :
  contains p s =
    String.prefix p s ||
    match s with
    | EmptyString => false
    | String _ s' => contains p s'
    end.
Proof. by destruct s. Qed.

Lemma contains_spec p s : contains p s = true <-> is_substring p s.
Proof.
  split.
  - induction s as [|c s IH]; rewrite contains_unfold, orb_true_iff.
    + intros [[post H]%prefix_spec|?]; [|done]. by exists "", post.
    + intros [[post H]%prefix_spec|H]; [by exists "", post|].
      destruct (IH H) as (pre & post & ->). by exists (String c pre), post.
  - intros (pre & post & ->). induction pre as [|c pre IH].
    + rewrite app_empty, contains_unfold, orb_true_iff. left.
      apply prefix_spec. by exists post.
    + rewrite app_String, contains_unfold, IH. apply orb_true_r.
Qed.

Lemma sorted_places places_iter :
  places_iter ≡ₚ PLACES -> sorted places_iter = ["ev"; "home"; "ieee"; "mcgill"].
Proof.
  intros Hperm. unfold sorted.
  apply (StronglySorted_unique String.le).
  - apply StronglySorted_merge_sort; apply _.
  - change ["ev"; "home"; "ieee"; "mcgill"] with (merge_sort String.le PLACES).
    apply StronglySorted_merge_sort; apply _.
  - rewrite merge_sort_Permutation, Hperm.
    change ["ev"; "home"; "ieee"; "mcgill"] with (merge_sort String.le PLACES).
    by rewrite merge_sort_Permutation.
Qed.

Lemma find_first {A} (f : A -> bool) before x after :
  f x = true -> (forall y, y ∈ before -> f y = false) ->
  find f (before ++ x :: after) = Some x.
Proof.
  intros Hx. induction before as [|y before IH]; intros Hb; simpl.
  - by rewrite Hx.
  - rewrite (Hb y) by left. apply IH. intros z Hz. apply Hb. by right.
Qed.

Lemma find_none {A} (f : A -> bool) l :
  (forall y, y ∈ l -> f y = false) -> find f l = None.
Proof.
  induction l as [|y l IH]; intros Hl; simpl; [done|].
  rewrite (Hl y) by left. apply IH. intros z Hz. apply Hl. by right.
Qed.

Lemma place_nonempty p : p ∈ PLACES -> str_truthy (Some p) = true.
Proof.
  unfold PLACES. rewrite !elem_of_cons, elem_of_nil.
  intros [->|[->|[->|[->|[]]]]]; reflexivity.
Qed.

End Strings.

(** C9.  For a start command (a message not of the bot whose lowered,
    stripped text starts with "start"), whatever order the set [PLACES] is
    visited in: when the text is one token, so that no location token
    follows, the user is prompted with the permitted values and nothing
    else happens; otherwise the first place in visiting order that occurs
    in the text as a substring is the location Start is called with; and
    when no permitted value occurs in the text, the invalid-location report
    is sent and nothing else happens. *)
Theorem start_command_location places_iter env message w :
  places_iter ≡ₚ PLACES ->
  author_is_bot message = false ->
  let text := strip (lower (content message)) in
  startswith text "start" = true ->
  (length (split text) = 1%nat ->
   on_message places_iter env message w =
     (emit (Send (mention (author message)
                  +:+ " Mention the location (choose one: "
                  +:+ options_text +:+ ").")) w, Ret tt)) /\
  (length (split text) <> 1%nat ->
   (forall before place after,
      places_iter = before ++ place :: after ->
      is_substring place text ->
      (forall p, p ∈ before -> ~ is_substring p text) ->
      on_message places_iter env message w =
        reply message (msg_started message place)
              (create_event env (author message) place (guild message) w)) /\
   ((forall p, p ∈ PLACES -> ~ is_substring p text) ->
    on_message places_iter env message w =
      (emit (Send ("Invalid location! Options: " +:+ options_text)) w,
       Ret tt))).
Proof.
  intros Hperm Hbot text Hstart. unfold on_message. rewrite Hbot.
  fold text. rewrite Hstart. split.
  - intros Hone. rewrite Hone. simpl.
    unfold msg_prompt. by rewrite (sorted_places _ Hperm).
  - intros Hmany. apply Nat.eqb_neq in Hmany. rewrite Hmany. split.
    + intros before place after Hsplit Hsub Hbefore.
      assert (scan_places places_iter text = Some place) as Hscan.
      { unfold scan_places. rewrite Hsplit. apply find_first.
        - by apply contains_spec.
        - intros p Hp. destruct (contains p text) eqn:Hc; [|done].
          apply contains_spec in Hc. by destruct (Hbefore p Hp). }
      rewrite Hscan, place_nonempty; [done|].
      rewrite <- Hperm, Hsplit. apply elem_of_app. right. left.
    + intros Hnone.
      assert (scan_places places_iter text = None) as Hscan.
      { unfold scan_places. apply find_none. intros p Hp.
        destruct (contains p text) eqn:Hc; [|done].
        apply contains_spec in Hc. rewrite Hperm in Hp.
        by destruct (Hnone p Hp). }
      rewrite Hscan. simpl. unfold msg_invalid.
      by rewrite (sorted_places _ Hperm).
Qed.

Lemma start_command_location_witness :
  let message := mkMessage alice false "  Start at HOME (not ieee) " (Some 5) in
  let order := ["mcgill"; "home"; "ev"; "ieee"] in
  order ≡ₚ PLACES /\
  author_is_bot message = false /\
  startswith (strip (lower (content message))) "start" = true /\
  on_message order (calm 0 "doc1" "ev1") message nothing =
    reply message (msg_started message "home")
          (create_event (calm 0 "doc1" "ev1") alice "home" (Some 5) nothing).
Proof.
  intros message order.
  assert (order ≡ₚ PLACES) as Hperm.
  { unfold order, PLACES.
    apply (Permutation_cons_app ["ieee"] ["ev"; "home"] "mcgill").
    apply (Permutation_cons_app ["ieee"; "ev"] [] "home").
    apply perm_swap. }
  split; [exact Hperm|]. split; [reflexivity|]. split; [reflexivity|].
  destruct (start_command_location order (calm 0 "doc1" "ev1") message nothing
              Hperm eq_refl eq_refl) as [_ Hmany].
  destruct Hmany as [Hfirst _]; [by vm_compute|].
  apply (Hfirst ["mcgill"] "home" ["ev"; "ieee"] eq_refl).
  - by exists "start at ", " (not ieee)".
  - intros p ->%list_elem_of_singleton Hsub.
    apply contains_spec in Hsub. vm_compute in Hsub. discriminate.
Defined.

(** * Further properties of Start *)

Section StartMore.

(** X1.  A Start that answers with an id has stored, under that id, a
    document of the actor that is active, whose [start_time] and
    [last_extend_check] are the clock reading, whose [calendar_event_id] is
    the id the calendar returned, and whose [calendar_end] is the clock
    reading plus [ROLLING_HORIZON], the very end the calendar was asked for;
    the one calendar call is that insert, and every other document of
    the store is as before. *)
Theorem start_success_record env user location guild_id w w' id :
  create_event env user location guild_id w = (w', Ret (Some id, None)) ->
  exists eid d,
    insert_answer env = inl eid /\
    store w' !! id = Some d /\
    d !! "user_id" = Some (VInt (uid user)) /\
    d !! "guild_id" = Some (guild_value guild_id) /\
    d !! "location" = Some (VStr location) /\
    d !! "start_time" = Some (VTime (now_utc env)) /\
    d !! "end_time" = Some VNull /\
    d !! "calendar_event_id" = Some (VStr eid) /\
    d !! "calendar_end" = Some (VTime (now_utc env + ROLLING_HORIZON)) /\
    d !! "last_extend_check" = Some (VTime (now_utc env)) /\
    new_events w w' =
      [CalInsert (event_summary user location) (now_utc env)
         (now_utc env + ROLLING_HORIZON) location (inl eid);
       StoreSet id true] /\
    forall j, j <> id -> store w' !! j = store w !! j.
Proof.
  intros (eid & He & -> & _ & Hst & Htr)%create_event_success_store.
  exists eid, (new_doc_data user location guild_id (now_utc env)
                 (now_utc env + ROLLING_HORIZON) eid).
  split; [done|]. split; [rewrite Hst; apply lookup_insert_eq|].
  do 8 (split; [done|]). split.
  - unfold new_events. by rewrite Htr, drop_app_length.
  - intros j Hj. rewrite Hst. by apply lookup_insert_ne.
Qed.

Lemma start_success_record_witness :
  create_event (calm 0 "doc1" "ev1") alice "home" (Some 5) nothing
    = (started, Ret (Some "doc1", None)) /\
  exists eid d,
    insert_answer (calm 0 "doc1" "ev1") = inl eid /\
    store started !! "doc1" = Some d /\
    d !! "user_id" = Some (VInt 7) /\
    d !! "guild_id" = Some (VInt 5) /\
    d !! "location" = Some (VStr "home") /\
    d !! "start_time" = Some (VTime 0) /\
    d !! "end_time" = Some VNull /\
    d !! "calendar_event_id" = Some (VStr eid) /\
    d !! "calendar_end" = Some (VTime (0 + ROLLING_HORIZON)) /\
    d !! "last_extend_check" = Some (VTime 0) /\
    new_events nothing started =
      [CalInsert "Alice working at home" 0 (0 + ROLLING_HORIZON) "home"
         (inl eid);
       StoreSet "doc1" true] /\
    forall j, j <> "doc1" -> store started !! j = store nothing !! j.
Proof.
  assert (create_event (calm 0 "doc1" "ev1") alice "home" (Some 5) nothing
          = (started, Ret (Some "doc1", None))) as H by reflexivity.
  split; [exact H|].
  exact (start_success_record _ _ _ _ _ _ _ H).
Defined.

(** X2.  Start answers "already active" exactly when the store holds a
    document with the actor's user id and [end_time] null and, when a guild
    is given, that guild.  So a Start without guild is blocked by an active
    session of the actor in any guild, while a Start in a guild is blocked
    neither by the actor's active sessions in other guilds nor by one
    without guild. *)
Theorem start_refused_iff env user location guild_id w :
  (create_event env user location guild_id w).2
    = Ret (None, Some msg_already_active) <->
  exists i d,
    store w !! i = Some d /\
    d !! "user_id" = Some (VInt (uid user)) /\
    d !! "end_time" = Some VNull /\
    match guild_id with
    | Some g => d !! "guild_id" = Some (VInt g)
    | None => True
    end.
Proof.
  split.
  - intros Hres.
    destruct (create_event_cases env user location guild_id w)
      as [[Hne _]|[_ [(e & _ & Heq)|[(eid & _ & _ & Heq)|(eid & _ & _ & Heq)]]]];
      try (rewrite Heq in Hres; simpl in Hres; simplify_eq).
    destruct (stream (active_query user guild_id) (store w)) as [|[i d] l]
      eqn:Hs; [done|].
    assert ((i, d) ∈ stream (active_query user guild_id) (store w)) as Hin
      by (rewrite Hs; left).
    apply elem_of_stream in Hin as [Hi Hq].
    apply active_query_true in Hq as (Hu & Ha & Hg). by exists i, d.
  - intros (i & d & Hi & Hu & Ha & Hg).
    erewrite create_event_refuses; [done|done|]. by apply active_query_true.
Qed.

End StartMore.

(** * Further properties of Stop *)

Section StopMore.

Lemma stop_fields_lookup env stop_ts (d : Data) k :
  k <> "end_time" -> k <> "calendar_end" -> k <> "last_extend_check" ->
  (stop_fields env stop_ts ∪ d) !! k = d !! k.
Proof.
  intros H1 H2 H3. unfold stop_fields.
  rewrite lookup_union_r; [done|]. by simplify_map_eq.
Qed.

(** X3.  Stop never raises, and it ends in one of two ways.  Either it
    answers with an id: that document was an active session of the actor,
    it now holds the server timestamp in [end_time] and the clock reading in
    [calendar_end] and [last_extend_check], its other fields are as before,
    and so is every other document.  Or it answers with one of its two error
    messages and the store is as it was. *)
Theorem stop_outcome env user guild_id w :
  let w' := (stop_event env user guild_id w).1 in
  (exists id d d',
     (stop_event env user guild_id w).2 = Ret (Some id, None) /\
     store w !! id = Some d /\
     d !! "user_id" = Some (VInt (uid user)) /\
     d !! "end_time" = Some VNull /\
     store w' !! id = Some d' /\
     d' !! "end_time" = Some (VTime (SERVER_TIMESTAMP env)) /\
     d' !! "calendar_end" = Some (VTime (now_utc env)) /\
     d' !! "last_extend_check" = Some (VTime (now_utc env)) /\
     (forall k, k <> "end_time" -> k <> "calendar_end" ->
                k <> "last_extend_check" -> d' !! k = d !! k) /\
     (forall j, j <> id -> store w' !! j = store w !! j)) \/
  (exists msg,
     (stop_event env user guild_id w).2 = Ret (None, Some msg) /\
     (msg = msg_no_active \/ msg = msg_stop_failed) /\
     store w' = store w).
Proof.
  intros w'. unfold w'.
  destruct (stop_candidates user guild_id (store w)) as [|c l] eqn:Hc.
  { right. exists msg_no_active.
    rewrite (stop_event_no_candidates _ _ _ _ Hc). auto. }
  destruct (py_max (stop_candidates user guild_id (store w)))
    as [[id data]|e] eqn:Hmax.
  - pose proof (py_max_spec _ _ Hmax) as [Hin _].
    apply elem_of_stop_candidates in Hin as [Hid Hq].
    apply active_query_true in Hq as (Hu & Ha & _).
    rewrite (stop_event_selected _ _ _ _ _ _ Hmax).
    destruct (update_fails env id).
    + right. exists msg_stop_failed. simpl.
      rewrite store_stop_patch. auto.
    + left. exists id, data, (stop_fields env (now_utc env) ∪ data). simpl.
      split; [done|]. split; [done|]. split; [done|]. split; [done|].
      split; [apply lookup_insert_eq|].
      split; [apply stop_fields_end_time|].
      split; [apply stop_fields_calendar_end|].
      split; [apply stop_fields_last_check|].
      split; [intros k ???; by apply stop_fields_lookup|].
      intros j Hj. by apply lookup_insert_ne.
  - right. exists msg_stop_failed.
    rewrite (stop_event_type_error _ _ _ _ _ Hmax) by (by rewrite Hc). auto.
Qed.

End StopMore.

(** * Start and Stop in sequence *)

Section StartStop.

(** A query that lists one document lists, narrowed, that document or
    nothing. *)
Lemma stream_narrow q1 q2 (st : Store) x :
  (forall d, q2 d = true -> q1 d = true) ->
  stream q1 st = [x] ->
  stream q2 st = [] \/ stream q2 st = [x].
Proof.
  intros Himp H1.
  assert (forall y, y ∈ stream q2 st -> y = x) as Hall.
  { intros [i d] [Hi Hq]%elem_of_stream.
    assert ((i, d) ∈ stream q1 st) as Hin
      by (apply elem_of_stream; auto).
    rewrite H1 in Hin. by apply list_elem_of_singleton in Hin. }
  assert (NoDup (stream q2 st)) as Hnd by apply NoDup_map_to_list.
  destruct (stream q2 st) as [|y [|z l]]; [by left|right|exfalso].
  - f_equal. apply Hall. left.
  - apply NoDup_cons in Hnd as [Hy _]. apply Hy.
    rewrite (Hall y) by left. rewrite (Hall z) by (right; left). left.
Qed.

Lemma active_query_weaken user guild_id d :
  active_query user guild_id d = true -> active_query user None d = true.
Proof.
  intros (Hu & Ha & _)%active_query_true. by apply active_query_true.
Qed.

(** With one active session of the actor in the whole store, Stop chooses
    it from whatever guild it is asked. *)
Lemma stop_candidates_only user guild_id (st : Store) x :
  stream (active_query user None) st = [x] ->
  stop_candidates user guild_id st = [x].
Proof.
  intros Hone.
  destruct (stream_narrow (active_query user None)
              (active_query user guild_id) st x) as [Hs|Hs]; [| done | |].
  - apply active_query_weaken.
  - by rewrite stop_candidates_fallback.
  - rewrite stop_candidates_scoped; by rewrite Hs.
Qed.

Lemma stop_candidates_none user guild_id (st : Store) :
  stream (active_query user None) st = [] ->
  stop_candidates user guild_id st = [].
Proof.
  intros Hnone. rewrite stop_candidates_fallback; [done|].
  apply stream_nil. intros i d Hi.
  destruct (active_query user guild_id d) eqn:Hq; [|done].
  apply active_query_weaken in Hq.
  rewrite stream_nil in Hnone. by rewrite (Hnone _ _ Hi) in Hq.
Qed.

(** Once its one match is stopped, a query lists nothing. *)
Lemma stream_after_stop user guild_id (st : Store) id d env stop_ts :
  stream (active_query user guild_id) st = [] ->
  stream (active_query user guild_id)
         (<[id := stop_fields env stop_ts ∪ d]> st) = [].
Proof.
  rewrite !stream_nil. intros Hnil i di Hi.
  destruct (decide (i = id)) as [->|Hne].
  - rewrite lookup_insert_eq in Hi. simplify_eq.
    destruct (active_query user guild_id _) eqn:Hq; [|done].
    apply active_query_true in Hq as (_ & Ha & _).
    by apply stop_fields_not_active in Ha.
  - rewrite lookup_insert_ne in Hi by done. by apply (Hnil i).
Qed.

(** The store after a Stop that answers with an id. *)
Lemma stop_event_success_store env user guild_id w w' id :
  stop_event env user guild_id w = (w', Ret (Some id, None)) ->
  exists data,
    py_max (stop_candidates user guild_id (store w)) = Ret (id, data) /\
    store w' = <[id := stop_fields env (now_utc env) ∪ data]> (store w).
Proof.
  intros Hstop.
  destruct (stop_event_success _ _ _ _ _ _ Hstop) as (data & Hmax & Hupd).
  rewrite (stop_event_selected _ _ _ _ _ _ Hmax), Hupd in Hstop.
  exists data. split; [done|]. by simplify_eq.
Qed.

(** X4.  Stop frees the slot: after a successful Start and a successful
    Stop of the same actor in the same scope, the next Start of that actor
    in that scope is not refused as already active; it goes on to the
    calendar, and with the calendar and the store answering it succeeds. *)
Theorem start_stop_start env1 env2 env3 user location1 location3 guild_id
    w0 w1 w2 id1 id2 :
  create_event env1 user location1 guild_id w0 = (w1, Ret (Some id1, None)) ->
  stop_event env2 user guild_id w1 = (w2, Ret (Some id2, None)) ->
  id2 = id1 /\
  (create_event env3 user location3 guild_id w2).2
    <> Ret (None, Some msg_already_active) /\
  (forall eid, insert_answer env3 = inl eid -> set_fails env3 = false ->
     (create_event env3 user location3 guild_id w2).2
       = Ret (Some (auto_id env3), None)).
Proof.
  intros Hstart Hstop.
  destruct (stop_candidates_after_start _ _ _ _ _ _ _ Hstart)
    as (eid1 & _ & Hcand).
  apply create_event_success_store in Hstart
    as (eid1' & _ & -> & Hnil & Hst1 & _).
  apply stop_event_success_store in Hstop as (data & Hmax & Hst2).
  rewrite Hcand in Hmax. simpl in Hmax. injection Hmax as <- <-.
  split; [done|].
  assert (stream (active_query user guild_id) (store w2) = []) as Hfree.
  { rewrite Hst2, Hst1, insert_insert_eq. by apply stream_after_stop. }
  destruct (create_event_cases env3 user location3 guild_id w2)
    as [[Hne _]|[_ [(e & He & ->)|[(eid & He & Hs & ->)|(eid & He & Hs & ->)]]]];
    [done|..]; simpl.
  - split; [intros ?; simplify_eq|]. intros eid Heid. congruence.
  - split; [done|]. intros eid' _ Hset. congruence.
  - split; [done|]. done.
Qed.

Lemma start_stop_start_witness :
  create_event (calm 0 "doc1" "ev1") alice "home" (Some 5) nothing
    = (started, Ret (Some "doc1", None)) /\
  stop_event (calm (minutes 8) "doc2" "ev2") alice (Some 5) started
    = (stopped, Ret (Some "doc1", None)) /\
  (create_event (calm (minutes 9) "doc3" "ev3") alice "ieee" (Some 5)
     stopped).2 = Ret (Some "doc3", None).
Proof.
  assert (create_event (calm 0 "doc1" "ev1") alice "home" (Some 5) nothing
          = (started, Ret (Some "doc1", None))) as H1 by reflexivity.
  assert (stop_event (calm (minutes 8) "doc2" "ev2") alice (Some 5) started
          = (stopped, Ret (Some "doc1", None))) as H2 by reflexivity.
  split; [exact H1|]. split; [exact H2|].
  destruct (start_stop_start (calm 0 "doc1" "ev1")
              (calm (minutes 8) "doc2" "ev2") (calm (minutes 9) "doc3" "ev3")
              alice "home" "ieee" (Some 5) nothing started stopped
              "doc1" "doc1" H1 H2) as (_ & _ & Hok).
  exact (Hok "ev3" eq_refl eq_refl).
Defined.

(** X5.  A session started in one place can be stopped from any other:
    when the actor had no active session anywhere, after a successful Start
    in some scope a Stop of that actor from any guild, or from none, whose
    store update is accepted stops that very session, and a further Stop of
    the actor, from anywhere, answers "no active event" and changes
    nothing. *)
Theorem stop_from_anywhere env1 env2 env3 user location g1 g2 g3 w0 w1 id1 :
  stream (active_query user None) (store w0) = [] ->
  create_event env1 user location g1 w0 = (w1, Ret (Some id1, None)) ->
  update_fails env2 id1 = false ->
  let w2 := (stop_event env2 user g2 w1).1 in
  (stop_event env2 user g2 w1).2 = Ret (Some id1, None) /\
  stop_event env3 user g3 w2 = (w2, Ret (None, Some msg_no_active)).
Proof.
  intros Hnone Hstart Hacc w2.
  apply create_event_success_store in Hstart
    as (eid & _ & -> & _ & Hst1 & _).
  set (doc := new_doc_data user location g1 (now_utc env1)
                (now_utc env1 + ROLLING_HORIZON) eid) in *.
  assert (stop_candidates user g2 (store w1) = [(auto_id env1, doc)]) as Hc.
  { apply stop_candidates_only. rewrite Hst1.
    apply stream_insert_only; [done|].
    apply active_query_weaken with g1.
    apply session_of_active_query, new_doc_session. }
  assert (py_max (stop_candidates user g2 (store w1))
          = Ret (auto_id env1, doc)) as Hmax by (by rewrite Hc).
  pose proof (stop_event_selected env2 _ _ _ _ _ Hmax) as Heq.
  rewrite Hacc in Heq. simpl in Heq.
  unfold w2. rewrite Heq. simpl. split; [done|].
  apply stop_event_no_candidates. simpl.
  apply stop_candidates_none.
  rewrite Hst1, insert_insert_eq. by apply stream_after_stop.
Qed.

Lemma stop_from_anywhere_witness :
  let w2 := (stop_event (calm (minutes 8) "doc2" "ev2") alice None started).1 in
  stream (active_query alice None) (store nothing) = [] /\
  create_event (calm 0 "doc1" "ev1") alice "home" (Some 5) nothing
    = (started, Ret (Some "doc1", None)) /\
  update_fails (calm (minutes 8) "doc2" "ev2") "doc1" = false /\
  (stop_event (calm (minutes 8) "doc2" "ev2") alice None started).2
    = Ret (Some "doc1", None) /\
  stop_event (calm (minutes 9) "doc3" "ev3") alice (Some 9) w2
    = (w2, Ret (None, Some msg_no_active)).
Proof.
  intros w2.
  assert (stream (active_query alice None) (store nothing) = []) as H0
    by reflexivity.
  assert (create_event (calm 0 "doc1" "ev1") alice "home" (Some 5) nothing
          = (started, Ret (Some "doc1", None))) as H1 by reflexivity.
  assert (update_fails (calm (minutes 8) "doc2" "ev2") "doc1" = false) as H2
    by reflexivity.
  split; [exact H0|]. split; [exact H1|]. split; [exact H2|].
  exact (stop_from_anywhere (calm 0 "doc1" "ev1")
           (calm (minutes 8) "doc2" "ev2") (calm (minutes 9) "doc3" "ev3")
           alice "home" (Some 5) None (Some 9) nothing started "doc1"
           H0 H1 H2).
Defined.

End StartStop.

(** * What a run leaves alone *)

Section Frame.

Lemma not_session_field k :
  k ∉ session_fields <->
  k <> "end_time" /\ k <> "calendar_end" /\ k <> "last_extend_check".
Proof.
  unfold session_fields. rewrite !not_elem_of_cons. split.
  - intros (?&?&?&_). auto.
  - intros (?&?&?). repeat split; auto. apply not_elem_of_nil.
Qed.

Lemma same_identity_refl d : same_identity d d.
Proof. by intros k _. Qed.

Lemma same_identity_trans d1 d2 d3 :
  same_identity d1 d2 -> same_identity d2 d3 -> same_identity d1 d3.
Proof. intros H12 H23 k Hk. rewrite (H23 k Hk). by apply H12. Qed.

(** Stop writes to an active document or to none. *)
Lemma stop_event_store_active env user guild_id w :
  store (stop_event env user guild_id w).1 = store w \/
  exists id d, store w !! id = Some d /\ is_active d /\
    store (stop_event env user guild_id w).1 =
      <[id := stop_fields env (now_utc env) ∪ d]> (store w).
Proof.
  destruct (stop_candidates user guild_id (store w)) as [|c l] eqn:Hc.
  { left. by rewrite (stop_event_no_candidates _ _ _ _ Hc). }
  destruct (py_max (stop_candidates user guild_id (store w)))
    as [[id data]|e] eqn:Hmax.
  - pose proof (py_max_spec _ _ Hmax) as [Hin _].
    apply elem_of_stop_candidates in Hin as [Hid Hq].
    apply active_query_true in Hq as (_ & Ha & _).
    rewrite (stop_event_selected _ _ _ _ _ _ Hmax).
    destruct (update_fails env id); simpl.
    + left. apply store_stop_patch.
    + right. by exists id, data.
  - left. by rewrite (stop_event_type_error _ _ _ _ _ Hmax) by (by rewrite Hc).
Qed.

Lemma extend_loop_keeps env now active w i d :
  store w !! i = Some d ->
  exists d', store (extend_loop env now active w).1 !! i = Some d' /\
    same_identity d d' /\
    ((forall doc, doc ∈ active -> doc.1 <> i) -> d' = d).
Proof.
  revert w d. induction active as [|doc rest IH]; intros w d Hi.
  { exists d. split; [done|]. split; [apply same_identity_refl|done]. }
  simpl. destruct (extend_one env now doc w) as [w1 r] eqn:Hone.
  assert (exists d1, store w1 !! i = Some d1 /\ same_identity d d1 /\
                     (doc.1 <> i -> d1 = d)) as (d1 & Hi1 & Hsame1 & Hfix1).
  { apply extend_one_store in Hone as [->|(dd & Hdd & ->)].
    - exists d. split; [done|]. split; [apply same_identity_refl|done].
    - destruct (decide (doc.1 = i)) as [Heq|Hne].
      + rewrite Heq in *. simplify_eq. eexists.
        split; [apply lookup_insert_eq|]. split; [|done].
        intros k (_ & ? & ?)%not_session_field.
        by apply extend_fields_lookup.
      + exists d. rewrite lookup_insert_ne by done.
        split; [done|]. split; [apply same_identity_refl|done]. }
  destruct r as [[]|e]; simpl.
  - destruct (IH w1 d1 Hi1) as (d' & Hi' & Hsame' & Hfix').
    exists d'. split; [done|]. split; [by eapply same_identity_trans|].
    intros Hall. rewrite Hfix'; [apply Hfix1|]; intros; apply Hall.
    + left.
    + by right.
  - exists d1. split; [done|]. split; [done|].
    intros Hall. apply Hfix1, Hall. left.
Qed.

Lemma extend_active_events_keeps env w i d :
  store w !! i = Some d ->
  exists d', store (extend_active_events env w).1 !! i = Some d' /\
    same_identity d d' /\ (~ is_active d -> d' = d).
Proof.
  intros Hi. unfold extend_active_events, extend_try.
  destruct (is_nil (active_sessions (store w))).
  { exists d. split; [done|]. split; [apply same_identity_refl|done]. }
  destruct (extend_loop_keeps env (now_utc env) (active_sessions (store w))
              w i d Hi) as (d' & Hi' & Hsame & Hfix).
  exists d'. split.
  - by destruct (extend_loop _ _ _ _) as [w' [[]|e]].
  - split; [done|]. intros Hina. apply Hfix.
    intros [j dj] [Hj Ha]%elem_of_active_sessions Heq. simpl in Heq.
    subst j. rewrite Hi in Hj. by simplify_eq.
Qed.

Lemma step_keeps env op w i d :
  store w !! i = Some d ->
  (forall user location guild_id,
     op = Start user location guild_id -> auto_id env <> i) ->
  exists d', store (step env op w) !! i = Some d' /\
    same_identity d d' /\ (~ is_active d -> d' = d).
Proof.
  intros Hi Hfresh. destruct op as [user location guild_id|user guild_id|];
    simpl.
  - exists d. split; [|split; [apply same_identity_refl|done]].
    specialize (Hfresh _ _ _ eq_refl).
    destruct (create_event_cases env user location guild_id w)
      as [[_ ->]|[_ [(e & _ & ->)|[(eid & _ & _ & ->)|(eid & _ & _ & ->)]]]];
      simpl; try done.
    by rewrite lookup_insert_ne.
  - destruct (stop_event_store_active env user guild_id w)
      as [->|(id & dd & Hdd & Ha & ->)].
    + exists d. split; [done|]. split; [apply same_identity_refl|done].
    + destruct (decide (id = i)) as [->|Hne].
      * simplify_eq. eexists. split; [apply lookup_insert_eq|].
        split; [|done].
        intros k (? & ? & ?)%not_session_field.
        by apply stop_fields_lookup.
      * exists d. rewrite lookup_insert_ne by done.
        split; [done|]. split; [apply same_identity_refl|done].
  - by apply extend_active_events_keeps.
Qed.

Lemma run_keeps ops w i d :
  store w !! i = Some d -> fresh_for i ops ->
  exists d', store (run ops w) !! i = Some d' /\
    same_identity d d' /\ (~ is_active d -> d' = d).
Proof.
  revert w d. induction ops as [|[env op] ops IH]; intros w d Hi Hfresh.
  { exists d. split; [done|]. split; [apply same_identity_refl|done]. }
  simpl. destruct (step_keeps env op w i d Hi) as (d1 & Hi1 & Hsame1 & Hfix1).
  { intros user location guild_id ->. eapply Hfresh. left. }
  destruct (IH (step env op w) d1 Hi1) as (d' & Hi' & Hsame' & Hfix').
  { intros env' user location guild_id Hin. eapply Hfresh. right. done. }
  exists d'. split; [done|]. split; [by eapply same_identity_trans|].
  intros Hina. rewrite Hfix'; [by apply Hfix1|].
  by rewrite (Hfix1 Hina).
Qed.

End Frame.

(** X6.  Through any run of Start, Stop and Reconcile in which no Start
    draws the id of a stored document for its new one, the document stays
    in the store and keeps every field but [end_time], [calendar_end] and
    [last_extend_check]: its user, guild, location, start time and calendar
    event id never change, and nothing is ever deleted. *)
Theorem identity_fields_never_change ops w i d :
  store w !! i = Some d -> fresh_for i ops ->
  exists d', store (run ops w) !! i = Some d' /\
    forall k, k <> "end_time" -> k <> "calendar_end" ->
              k <> "last_extend_check" -> d' !! k = d !! k.
Proof.
  intros Hi Hfresh.
  destruct (run_keeps ops w i d Hi Hfresh) as (d' & Hi' & Hsame & _).
  exists d'. split; [done|]. intros k H1 H2 H3.
  apply Hsame. by apply not_session_field.
Qed.

(** X7.  A finished session is final: through any such run a document
    whose [end_time] is not null is never written again. *)
Theorem finished_sessions_never_change ops w i d :
  store w !! i = Some d -> d !! "end_time" <> Some VNull ->
  fresh_for i ops ->
  store (run ops w) !! i = Some d.
Proof.
  intros Hi Hend Hfresh.
  destruct (run_keeps ops w i d Hi Hfresh) as (d' & Hi' & _ & Hfix).
  by rewrite Hi', (Hfix Hend).
Qed.

Lemma later_ops_fresh : fresh_for "doc1" later_ops.
Proof.
  intros env user location guild_id Hin. unfold later_ops in Hin.
  repeat (apply elem_of_cons in Hin as [Hin|Hin]); simplify_eq; try done.
  by apply elem_of_nil in Hin.
Qed.

Lemma identity_fields_never_change_witness :
  store started !! "doc1" = Some started_doc /\
  fresh_for "doc1" later_ops /\
  exists d', store (run later_ops started) !! "doc1" = Some d' /\
    forall k, k <> "end_time" -> k <> "calendar_end" ->
              k <> "last_extend_check" -> d' !! k = started_doc !! k.
Proof.
  split; [reflexivity|]. split; [apply later_ops_fresh|].
  apply (identity_fields_never_change later_ops started "doc1" started_doc
           eq_refl later_ops_fresh).
Defined.

Lemma finished_sessions_never_change_witness :
  store stopped !! "doc1"
    = Some (stop_fields (calm (minutes 8) "doc2" "ev2") (minutes 8)
            ∪ started_doc) /\
  fresh_for "doc1" later_ops /\
  store (run later_ops stopped) !! "doc1"
    = Some (stop_fields (calm (minutes 8) "doc2" "ev2") (minutes 8)
            ∪ started_doc).
Proof.
  assert (store stopped !! "doc1"
          = Some (stop_fields (calm (minutes 8) "doc2" "ev2") (minutes 8)
                  ∪ started_doc)) as H by reflexivity.
  split; [exact H|]. split; [apply later_ops_fresh|].
  apply (finished_sessions_never_change later_ops stopped "doc1" _ H);
    [|apply later_ops_fresh].
  intros Hend. vm_compute in Hend. discriminate.
Defined.

(** * Further properties of Reconcile *)

Section PassMore.

#[local] Arguments truthy : simpl never.

Lemma extend_one_general env now doc w :
  store w !! doc.1 = Some doc.2 ->
  store (extend_one env now doc w).1 = store w \/
  (truthy (doc.2 !! "calendar_event_id") = true /\ due doc.2 now = true /\
   store (extend_one env now doc w).1 =
     <[doc.1 := extend_fields now (now + ROLLING_HORIZON) ∪ doc.2]> (store w)).
Proof.
  intros Hdoc. unfold extend_one, due.
  destruct (doc.2 !! "calendar_event_id") as [eid|] eqn:Heid; [|by left].
  destruct (truthy (Some eid)) eqn:Htr; simpl; [|by left].
  destruct (_ <=? _) eqn:Hdue; [|by left].
  destruct (patch_fails env doc.1); [by left|].
  unfold doc_update. destruct (update_fails env doc.1); [by left|].
  simpl. rewrite Hdoc. simpl. by right.
Qed.

Lemma extend_loop_general env now active w :
  NoDup active.*1 ->
  (forall i d, (i, d) ∈ active -> store w !! i = Some d) ->
  forall i,
    store (extend_loop env now active w).1 !! i = store w !! i \/
    exists d, (i, d) ∈ active /\
      truthy (d !! "calendar_event_id") = true /\ due d now = true /\
      store (extend_loop env now active w).1 !! i =
        Some (extend_fields now (now + ROLLING_HORIZON) ∪ d).
Proof.
  revert w. induction active as [|[j dj] rest IH]; intros w Hnd Hin i;
    [by left|].
  apply NoDup_cons in Hnd as [Hj Hnd]. simpl in Hj.
  assert (store w !! j = Some dj) as Hdj by (apply Hin; left).
  pose proof (extend_one_general env now (j, dj) w Hdj) as Hone.
  simpl. destruct (extend_one env now (j, dj) w) as [w1 r]. simpl in Hone.
  assert (forall i' d', (i', d') ∈ rest -> store w1 !! i' = Some d') as Hin1.
  { intros i' d' Hi'.
    assert (i' <> j) as Hne.
    { intros ->. apply Hj. apply list_elem_of_fmap. by exists (j, d'). }
    destruct Hone as [->|(_ & _ & ->)].
    - apply Hin. by right.
    - rewrite lookup_insert_ne by done. apply Hin. by right. }
  assert (store w1 !! i = store w !! i \/
          (i = j /\ truthy (dj !! "calendar_event_id") = true /\
           due dj now = true /\
           store w1 !! i =
             Some (extend_fields now (now + ROLLING_HORIZON) ∪ dj)))
    as Hhead.
  { destruct Hone as [->|(Htr & Hdue & ->)]; [by left|].
    destruct (decide (i = j)) as [->|Hne].
    - right. by rewrite lookup_insert_eq.
    - left. by rewrite lookup_insert_ne. }
  assert (i ∈ rest.*1 -> store w1 !! i = store w !! i) as Hrest.
  { intros Hi. destruct Hhead as [?|(-> & _)]; [done|]. by destruct Hj. }
  destruct r as [[]|e]; simpl.
  - destruct (IH w1 Hnd Hin1 i) as [Heq|(d & Hd & Htr & Hdue & Heq)].
    + rewrite Heq. destruct Hhead as [?|(-> & Htr & Hdue & ?)]; [by left|].
      right. exists dj. split; [left|done].
    + right. exists d. split; [by right|done].
  - destruct Hhead as [?|(-> & Htr & Hdue & ?)]; [by left|].
    right. exists dj. split; [left|done].
Qed.

Lemma extend_active_events_general env w i :
  store (extend_active_events env w).1 !! i = store w !! i \/
  exists d, (i, d) ∈ active_sessions (store w) /\
    truthy (d !! "calendar_event_id") = true /\
    due d (now_utc env) = true /\
    store (extend_active_events env w).1 !! i =
      Some (extend_fields (now_utc env) (now_utc env + ROLLING_HORIZON) ∪ d).
Proof.
  unfold extend_active_events, extend_try.
  destruct (is_nil (active_sessions (store w))); [by left|].
  destruct (extend_loop_general env (now_utc env) (active_sessions (store w))
              w) with (i := i) as [Heq|(d & Hd & Htr & Hdue & Heq)].
  { apply NoDup_stream_ids. }
  { intros j dj Hin. by apply elem_of_active_sessions in Hin as [? _]. }
  - left. by destruct (extend_loop _ _ _ _) as [w' [[]|e]].
  - right. exists d. repeat (split; [done|]).
    by destruct (extend_loop _ _ _ _) as [w' [[]|e]].
Qed.

Lemma due_calendar_end d now e :
  due d now = true -> d !! "calendar_end" = Some (VTime e) ->
  e < now + ROLLING_HORIZON.
Proof.
  unfold due, current_end_of. intros Hdue He. rewrite He in Hdue.
  simpl in Hdue. apply Z.leb_le in Hdue. unfold TOP_UP_THRESHOLD, ROLLING_HORIZON, minutes in *.
  lia.
Qed.

End PassMore.

(** X8.  Whatever the calendar and the store answer, a Reconcile pass
    leaves a document as it was, or the document was an active session with
    a calendar event id whose [calendar_end] was no more than
    [TOP_UP_THRESHOLD] ahead of the clock (or no timestamp), and it now has
    [calendar_end = now + ROLLING_HORIZON], [last_extend_check = now] and
    its other fields as before.  A pass never moves a stored [calendar_end]
    backwards: a [calendar_end] it replaces was earlier than the new one. *)
Theorem reconcile_changes_only_due_sessions env w i d :
  store w !! i = Some d ->
  let now := now_utc env in
  let w' := (extend_active_events env w).1 in
  store w' !! i = Some d \/
  (d !! "end_time" = Some VNull /\
   truthy (d !! "calendar_event_id") = true /\
   current_end_of d now - now <= TOP_UP_THRESHOLD /\
   (forall e, d !! "calendar_end" = Some (VTime e) ->
              e < now + ROLLING_HORIZON) /\
   exists d', store w' !! i = Some d' /\
     d' !! "calendar_end" = Some (VTime (now + ROLLING_HORIZON)) /\
     d' !! "last_extend_check" = Some (VTime now) /\
     forall k, k <> "calendar_end" -> k <> "last_extend_check" ->
               d' !! k = d !! k).
Proof.
  intros Hi now w'.
  destruct (extend_active_events_general env w i)
    as [Heq|(d0 & Hin & Htr & Hdue & Heq)].
  { left. unfold w'. by rewrite Heq. }
  apply elem_of_active_sessions in Hin as [Hi0 Ha].
  rewrite Hi in Hi0. injection Hi0 as <-.
  right. split; [done|]. split; [done|]. split.
  { unfold due in Hdue. by apply Z.leb_le. }
  split; [intros e He; by eapply due_calendar_end|].
  eexists. split; [exact Heq|].
  split; [apply extend_fields_calendar_end|].
  split; [apply extend_fields_last_check|].
  intros k ??. by apply extend_fields_lookup.
Qed.

Lemma reconcile_changes_only_due_sessions_witness :
  let w' := (extend_active_events refuses_doc1 two_started).1 in
  store two_started !! "doc1" = Some started_doc /\
  store w' !! "doc1" = Some started_doc.
Proof.
  intros w'.
  assert (store two_started !! "doc1" = Some started_doc) as H
    by reflexivity.
  split; [exact H|].
  destruct (reconcile_changes_only_due_sessions refuses_doc1 two_started
              "doc1" started_doc H) as [Hsame|(_ & _ & _ & _ & Hnew)];
    [exact Hsame|].
  reflexivity.
Defined.

Section Buffer.

#[local] Arguments truthy : simpl never.

Lemma extend_one_skips env now doc w :
  truthy (doc.2 !! "calendar_event_id") = false \/ due doc.2 now = false ->
  extend_one env now doc w = (w, Ret tt).
Proof.
  intros Hskip. unfold extend_one.
  destruct (doc.2 !! "calendar_event_id") as [eid|] eqn:Heid; [|done].
  destruct (truthy (Some eid)) eqn:Htr; [|done]. simpl.
  destruct Hskip as [?|Hdue]; [done|].
  unfold due in Hdue. by rewrite Hdue.
Qed.

Lemma extend_loop_skips env now active w :
  (forall doc, doc ∈ active ->
     truthy (doc.2 !! "calendar_event_id") = false \/ due doc.2 now = false) ->
  extend_loop env now active w = (w, Ret tt).
Proof.
  induction active as [|doc rest IH]; intros Hall; [done|].
  simpl. rewrite extend_one_skips by (apply Hall; left).
  apply IH. intros doc' Hin. apply Hall. by right.
Qed.

(** A session with a calendar event id that a pass at [now] has handled or
    skipped has its calendar end more than the threshold ahead. *)
Lemma session_after_buffer env now i d d' :
  patch_fails env i = false ->
  d' = session_after env now (i, d) ->
  truthy (d' !! "calendar_event_id") = true ->
  exists e, d' !! "calendar_end" = Some (VTime e) /\
            e - now > TOP_UP_THRESHOLD.
Proof.
  intros Hok -> Htr. unfold session_after in *. simpl in *.
  rewrite Hok in *. simpl in *. rewrite andb_true_r in *.
  destruct (truthy (d !! "calendar_event_id")) eqn:Htr0; simpl in *.
  - destruct (due d now) eqn:Hdue.
    + exists (now + ROLLING_HORIZON).
      split; [apply extend_fields_calendar_end|].
      unfold ROLLING_HORIZON, TOP_UP_THRESHOLD, minutes. lia.
    + unfold due, current_end_of in Hdue.
      destruct (d !! "calendar_end") as [[| | |e]|] eqn:He; simpl in Hdue;
        try (apply Z.leb_gt in Hdue;
             unfold TOP_UP_THRESHOLD, minutes in Hdue; lia).
      exists e. split; [done|]. apply Z.leb_gt in Hdue. lia.
  - congruence.
Qed.

End Buffer.

(** X9.  A pass in which every calendar patch and every store update
    succeeds restores the buffer: afterwards every active session with a
    calendar event id has a [calendar_end] more than [TOP_UP_THRESHOLD]
    after the clock reading of the pass.  So another pass at that clock
    reading, or an earlier one, makes no call and changes nothing,
    whatever the calendar and the store would answer. *)
Theorem reconcile_restores_buffer env w :
  (forall i, patch_fails env i = false) ->
  (forall i, update_fails env i = false) ->
  let w' := (extend_active_events env w).1 in
  (forall i d,
     (i, d) ∈ active_sessions (store w') ->
     truthy (d !! "calendar_event_id") = true ->
     exists e, d !! "calendar_end" = Some (VTime e) /\
               e - now_utc env > TOP_UP_THRESHOLD) /\
  (forall env', now_utc env' <= now_utc env ->
     extend_active_events env' w' = (w', Ret tt)).
Proof.
  intros Hpatch Hupd w'.
  destruct (extend_active_events_accepted env w Hupd)
    as (st' & Heq & Hdocs & Hrest).
  assert (store w' = st') as Hst by (unfold w'; by rewrite Heq).
  assert (forall i d,
            (i, d) ∈ active_sessions (store w') ->
            truthy (d !! "calendar_event_id") = true ->
            exists e, d !! "calendar_end" = Some (VTime e) /\
                      e - now_utc env > TOP_UP_THRESHOLD) as Hbuf.
  { intros i d [Hi Ha]%elem_of_active_sessions Htr. rewrite Hst in Hi.
    destruct (decide (i ∈ (active_sessions (store w)).*1)) as [Hin|Hout].
    - apply list_elem_of_fmap in Hin as ([j d0] & -> & Hin). simpl in *.
      rewrite (Hdocs _ _ Hin) in Hi. injection Hi as Hd.
      by eapply session_after_buffer.
    - rewrite (Hrest _ Hout) in Hi. destruct Hout.
      apply list_elem_of_fmap. exists (i, d). split; [done|].
      by apply elem_of_active_sessions. }
  split; [done|].
  intros env' Hnow. unfold extend_active_events, extend_try.
  destruct (is_nil (active_sessions (store w'))); [done|].
  rewrite extend_loop_skips; [done|].
  intros [i d] Hin. simpl.
  destruct (truthy (d !! "calendar_event_id")) eqn:Htr; [right|by left].
  destruct (Hbuf i d Hin Htr) as (e & He & Hgt).
  unfold due, current_end_of. rewrite He. simpl. apply Z.leb_gt. lia.
Qed.

Lemma reconcile_restores_buffer_witness :
  let env := calm (minutes 6) "doc3" "ev3" in
  let w' := (extend_active_events env two_started).1 in
  (forall i, patch_fails env i = false) /\
  (forall i, update_fails env i = false) /\
  extend_active_events (outage (minutes 6)) w' = (w', Ret tt).
Proof.
  intros env w'.
  assert (forall i, patch_fails env i = false) as H1 by reflexivity.
  assert (forall i, update_fails env i = false) as H2 by reflexivity.
  split; [exact H1|]. split; [exact H2|].
  apply (reconcile_restores_buffer env two_started H1 H2).
  reflexivity.
Defined.

Section CallBound.




End CallBound.


(** * Further properties of the chat front-end *)

Section Trim.

Lemma app_empty_r (s : string) : s +:+ "" = s.
Proof. induction s as [|c s IH]; [done|]. by rewrite app_String, IH. Qed.

Lemma app_assoc_s (a b c : string) : (a +:+ b) +:+ c = a +:+ (b +:+ c).
Proof. induction a as [|x a IH]; [done|]. by rewrite !app_String, IH. Qed.

Lemma rev_app_spec s acc : String.rev_app s acc = String.rev s +:+ acc.
Proof.
  revert acc. induction s as [|c s IH]; intros acc; [done|].
  unfold String.rev. simpl. rewrite (IH (String c acc)), (IH (String c "")).
  by rewrite app_assoc_s.
Qed.

Lemma rev_cons c s : String.rev (String c s) = String.rev s +:+ String c "".
Proof. unfold String.rev at 1. simpl. apply rev_app_spec. Qed.

Lemma rev_snoc s c : String.rev (s +:+ String c "") = String c (String.rev s).
Proof.
  induction s as [|x s IH]; [done|].
  by rewrite app_String, !rev_cons, IH, app_String.
Qed.

Lemma rev_involutive s : String.rev (String.rev s) = s.
Proof.
  induction s as [|c s IH]; [done|]. by rewrite rev_cons, rev_snoc, IH.
Qed.

Lemma rev_empty s : is_empty (String.rev s) = is_empty s.
Proof.
  destruct s as [|c s]; [done|]. rewrite rev_cons.
  by destruct (String.rev s).
Qed.

Lemma lstrip_snoc s c :
  lstrip (s +:+ String c "") =
    if is_empty (lstrip s) then lstrip (String c "")
    else lstrip s +:+ String c "".
Proof.
  induction s as [|x s IH]; [done|]. rewrite app_String. simpl.
  destruct (is_space x); [done|]. by rewrite app_String.
Qed.

(** [rstrip] from the front of the string. *)
Lemma rstrip_cons c s :
  rstrip (String c s) =
    if is_space c && is_empty (rstrip s) then "" else String c (rstrip s).
Proof.
  unfold rstrip. rewrite rev_cons, lstrip_snoc, rev_empty.
  destruct (lstrip (String.rev s)) as [|y t] eqn:Hl; simpl.
  - by destruct (is_space c).
  - rewrite andb_false_r. by rewrite rev_snoc.
Qed.

Lemma lstrip_idem s : lstrip (lstrip s) = lstrip s.
Proof.
  induction s as [|c s IH]; [done|]. simpl.
  destruct (is_space c) eqn:Hc; [done|]. simpl. by rewrite Hc.
Qed.

Lemma rstrip_idem s : rstrip (rstrip s) = rstrip s.
Proof. unfold rstrip. by rewrite rev_involutive, lstrip_idem. Qed.

Lemma lstrip_rstrip s : lstrip (rstrip s) = rstrip (lstrip s).
Proof.
  induction s as [|c s IH]; [done|]. rewrite rstrip_cons. simpl.
  destruct (is_space c) eqn:Hc; simpl.
  - destruct (rstrip s) as [|y t] eqn:Hr; simpl in *.
    + by rewrite <- IH.
    + by rewrite Hc.
  - by rewrite Hc, rstrip_cons, Hc.
Qed.

Lemma strip_idem s : strip (strip s) = strip s.
Proof.
  unfold strip. by rewrite lstrip_rstrip, lstrip_idem, rstrip_idem.
Qed.









End Trim.


Section ChatMore.

Lemma store_reply message ok_text r :
  store (reply message ok_text r).1 = store r.1.
Proof.
  unfold reply. destruct r as [w' [[doc_id err]|e]]; [|done].
  by destruct (str_truthy err).
Qed.

Lemma scan_places_some places_iter text place :
  scan_places places_iter text = Some place ->
  place ∈ places_iter /\ is_substring place text.
Proof.
  unfold scan_places. intros [Hin Hc]%find_some. split.
  - by apply list_elem_of_In.
  - by apply contains_spec.
Qed.

End ChatMore.

(** X11.  A start command stores nothing, or stores one new session whose
    location is a permitted place that occurs in the lowered, trimmed text:
    whatever the text and whatever order [PLACES] is visited in, no other
    location ever reaches the store. *)
Theorem start_command_stores_permitted_place places_iter env message w :
  places_iter ≡ₚ PLACES ->
  author_is_bot message = false ->
  let text := strip (lower (content message)) in
  startswith text "start" = true ->
  let w' := (on_message places_iter env message w).1 in
  store w' = store w \/
  exists place eid,
    place ∈ PLACES /\ is_substring place text /\
    insert_answer env = inl eid /\
    store w' =
      <[auto_id env :=
          new_doc_data (author message) place (guild message) (now_utc env)
            (now_utc env + ROLLING_HORIZON) eid]> (store w).
Proof.
  intros Hperm Hbot text Hstart w'. unfold w', on_message.
  rewrite Hbot. fold text. rewrite Hstart.
  destruct (length (split text) =? 1)%nat; [by left|].
  destruct (scan_places places_iter text) as [place|] eqn:Hscan;
    [|by left].
  destruct (str_truthy (Some place)); simpl; [|by left].
  rewrite store_reply.
  apply scan_places_some in Hscan as [Hin Hsub]. rewrite Hperm in Hin.
  destruct (create_event_cases env (author message) place (guild message) w)
    as [[_ ->]|[_ [(e & _ & ->)|[(eid & _ & _ & ->)|(eid & He & _ & ->)]]]];
    simpl; try by left.
  right. by exists place, eid.
Qed.

Lemma start_command_stores_permitted_place_witness :
  let message := mkMessage alice false "  Start at HOME (not ieee) " (Some 5) in
  let order := ["mcgill"; "home"; "ev"; "ieee"] in
  let w' := (on_message order (calm 0 "doc1" "ev1") message nothing).1 in
  order ≡ₚ PLACES /\
  author_is_bot message = false /\
  startswith (strip (lower (content message))) "start" = true /\
  (store w' = store nothing \/
   exists place eid,
     place ∈ PLACES /\
     is_substring place (strip (lower (content message))) /\
     insert_answer (calm 0 "doc1" "ev1") = inl eid /\
     store w' =
       <["doc1" := new_doc_data alice place (Some 5) 0 (0 + ROLLING_HORIZON)
                     eid]> (store nothing)).
Proof.
  intros message order w'.
  assert (order ≡ₚ PLACES) as Hperm.
  { unfold order, PLACES.
    apply (Permutation_cons_app ["ieee"] ["ev"; "home"] "mcgill").
    apply (Permutation_cons_app ["ieee"; "ev"] [] "home").
    apply perm_swap. }
  split; [exact Hperm|]. split; [reflexivity|]. split; [reflexivity|].
  exact (start_command_stores_permitted_place order (calm 0 "doc1" "ev1")
           message nothing Hperm eq_refl eq_refl).
Defined.

Section Words.

Lemma split_from_no_space cur s :
  has_space s = false ->
  split_from cur s = close_run (String.rev_app s cur).
Proof.
  revert cur. induction s as [|c s IH]; intros cur Hs; [done|].
  simpl in Hs. apply orb_false_iff in Hs as [Hc Hs].
  simpl. rewrite Hc. by apply IH.
Qed.

Lemma split_from_length_run cur s :
  is_empty cur = false -> (1 <= length (split_from cur s))%nat.
Proof.
  revert cur. induction s as [|c s IH]; intros cur Hcur; simpl.
  - destruct cur; [done|]. simpl. lia.
  - destruct (is_space c).
    + rewrite length_app. destruct cur; [done|]. simpl. lia.
    + by apply IH.
Qed.

Lemma split_from_length_word cur s :
  is_empty (rstrip s) = false -> (1 <= length (split_from cur s))%nat.
Proof.
  revert cur. induction s as [|c s IH]; intros cur Hs; [done|].
  rewrite rstrip_cons in Hs. simpl. destruct (is_space c); simpl in Hs.
  - rewrite length_app. destruct (is_empty (rstrip s)) eqn:He; [done|].
    specialize (IH "" eq_refl). lia.
  - by apply split_from_length_run.
Qed.

(** A text with no trailing whitespace and a whitespace inside has a second
    word after the run being read. *)
Lemma split_from_length_two cur s :
  is_empty cur = false -> rstrip s = s -> has_space s = true ->
  (2 <= length (split_from cur s))%nat.
Proof.
  revert cur. induction s as [|c s IH]; intros cur Hcur Hr Hs; [done|].
  rewrite rstrip_cons in Hr. simpl in *. destruct (is_space c); simpl in *.
  - destruct (is_empty (rstrip s)) eqn:He; [done|].
    rewrite length_app. pose proof (split_from_length_word "" s He).
    destruct cur; [done|]. simpl. lia.
  - injection Hr as Hr. by apply IH.
Qed.

Lemma one_word_iff text :
  strip text = text -> startswith text "start" = true ->
  length (split text) = 1%nat <-> has_space text = false.
Proof.
  intros Hstrip Hstart.
  assert (rstrip text = text) as Hr.
  { rewrite <- Hstrip. unfold strip. apply rstrip_idem. }
  destruct text as [|c rest]; [done|].
  assert (c = "s"%char) as ->.
  { apply prefix_spec in Hstart as [post Hpost].
    change ("start" +:+ post) with (String "s" ("tart" +:+ post)) in Hpost.
    by injection Hpost. }
  rewrite rstrip_cons in Hr. simpl in Hr. injection Hr as Hr.
  split.
  - intros Hone. destruct (has_space (String "s" rest)) eqn:Hs; [|done].
    pose proof (split_from_length_two (String "s" "") rest eq_refl Hr Hs)
      as Htwo.
    unfold split in Hone. simpl in Hone. lia.
  - intros Hs. unfold split. rewrite split_from_no_space by done.
    rewrite rev_app_spec, app_empty_r.
    destruct (String.rev (String "s" rest)) eqn:Hrev; [|done].
    pose proof (rev_empty (String "s" rest)) as He. by rewrite Hrev in He.
Qed.

End Words.

(** X13.  For a start command the prompt for a location is sent exactly
    when the lowered, trimmed text is one word: [split] gives one part if
    and only if the text has no whitespace.  So a one-word text gets the
    prompt even when a permitted place occurs in it, and a text with
    whitespace inside is never answered with the prompt branch but goes to
    the scan for a place. *)
Theorem prompt_iff_one_word places_iter env message w :
  author_is_bot message = false ->
  let text := strip (lower (content message)) in
  startswith text "start" = true ->
  (length (split text) = 1%nat <-> has_space text = false) /\
  (has_space text = false ->
   on_message places_iter env message w =
     (emit (Send (msg_prompt places_iter message)) w, Ret tt)) /\
  (has_space text = true ->
   on_message places_iter env message w =
     match scan_places places_iter text with
     | Some place =>
         if str_truthy (Some place) then
           reply message (msg_started message place)
                 (create_event env (author message) place (guild message) w)
         else (emit (Send (msg_invalid places_iter)) w, Ret tt)
     | None => (emit (Send (msg_invalid places_iter)) w, Ret tt)
     end).
Proof.
  intros Hbot text Hstart.
  assert (length (split text) = 1%nat <-> has_space text = false) as Hiff.
  { apply one_word_iff; [|done]. unfold text. apply strip_idem. }
  split; [done|]. unfold on_message. rewrite Hbot. fold text.
  rewrite Hstart. split.
  - intros Hs. apply Hiff in Hs. by rewrite Hs.
  - intros Hs.
    assert (length (split text) <> 1%nat) as Hne.
    { intros Hone. apply Hiff in Hone. congruence. }
    apply Nat.eqb_neq in Hne. rewrite Hne.
    destruct (scan_places places_iter text) as [place|]; [|done].
    by destruct (str_truthy (Some place)).
Qed.

Lemma prompt_iff_one_word_witness :
  let message := mkMessage alice false " StartHome " None in
  author_is_bot message = false /\
  startswith (strip (lower (content message))) "start" = true /\
  on_message PLACES (calm 0 "doc1" "ev1") message nothing =
    (emit (Send (msg_prompt PLACES message)) nothing, Ret tt).
Proof.
  intros message. split; [reflexivity|]. split; [reflexivity|].
  apply (prompt_iff_one_word PLACES (calm 0 "doc1" "ev1") message nothing
           eq_refl eq_refl).
  reflexivity.
Defined.

Section Replies.




End Replies.


(** X15.  A session without a start time is never preferred to one with a
    start time: when Stop answers with an id and some candidate has a
    timestamp in [start_time] after the year-1 default, the chosen document
    has a timestamp in [start_time] too, and a later or equal one. *)
Theorem missing_start_time_loses env user guild_id w w' id j dj tj :
  stop_event env user guild_id w = (w', Ret (Some id, None)) ->
  (j, dj) ∈ stop_candidates user guild_id (store w) ->
  dj !! "start_time" = Some (VTime tj) -> datetime_min < tj ->
  exists d t,
    store w !! id = Some d /\ d !! "start_time" = Some (VTime t) /\ tj <= t.
Proof.
  intros Hstop Hj Hdj Hmin.
  apply stop_event_success in Hstop as (data & Hmax & _).
  apply py_max_spec in Hmax as [Hin Hle].
  apply elem_of_stop_candidates in Hin as [Hid _].
  specialize (Hle (j, dj) Hj). simpl in Hle.
  exists data. unfold _get_start, truthy in Hle. rewrite Hdj in Hle.
  destruct (data !! "start_time") as [[|n|s|t]|] eqn:Hd; simpl in Hle.
  - injection Hle as Hle. apply Z.ltb_ge in Hle. lia.
  - destruct (negb (n =? 0)); [done|].
    injection Hle as Hle. apply Z.ltb_ge in Hle. lia.
  - destruct (negb (String.eqb s "")); [done|].
    injection Hle as Hle. apply Z.ltb_ge in Hle. lia.
  - exists t. split; [done|]. split; [done|].
    injection Hle as Hle. by apply Z.ltb_ge.
  - injection Hle as Hle. apply Z.ltb_ge in Hle. lia.
Qed.

Lemma missing_start_time_loses_witness :
  let env := calm (minutes 8) "doc2" "ev2" in
  stop_event env alice (Some 5) with_undated
    = ((stop_event env alice (Some 5) with_undated).1,
       Ret (Some "doc1", None)) /\
  ("doc1", started_doc) ∈ stop_candidates alice (Some 5) (store with_undated) /\
  started_doc !! "start_time" = Some (VTime 0) /\
  datetime_min < 0 /\
  exists d t,
    store with_undated !! "doc1" = Some d /\
    d !! "start_time" = Some (VTime t) /\ 0 <= t.
Proof.
  intros env.
  assert (stop_event env alice (Some 5) with_undated
          = ((stop_event env alice (Some 5) with_undated).1,
             Ret (Some "doc1", None))) as H1 by reflexivity.
  assert (("doc1", started_doc)
            ∈ stop_candidates alice (Some 5) (store with_undated)) as H2.
  { rewrite stop_candidates_scoped.
    - apply elem_of_stream. split; reflexivity.
    - intros Hnil. apply stream_nil with (i := "doc1") (d := started_doc)
        in Hnil; [discriminate Hnil|reflexivity]. }
  assert (started_doc !! "start_time" = Some (VTime 0)) as H3 by reflexivity.
  assert (datetime_min < 0) as H4 by reflexivity.
  split; [exact H1|]. split; [exact H2|]. split; [exact H3|].
  split; [exact H4|].
  exact (missing_start_time_loses env alice (Some 5) with_undated _ "doc1"
           "doc1" started_doc 0 H1 H2 H3 H4).
Defined.
